(** * pico-di: a shallow embedding of the resolution engine

    The development follows [index.js]: the factory wrapper
    ([ServiceFactory.from]), the registry builder and the registry, the scope
    with its two guards and [resolve], the proxy returned by [createContext],
    and the provider.  JavaScript state (the two [Map] caches, the resolution
    path, the object heap) is threaded explicitly; exceptions are completions.

    The scope is modelled twice.  First on its own, with the provider it
    shares: factories read the context they are handed.  Then, in the module
    [Across], within the provider and all its scopes: factories may also read
    contexts of other scopes and begin scopes.  On factories that read the
    context they are handed the two agree ([createContext_lift]).
*)

From stdpp Require Import gmap strings list fin_maps.

(** ** Values, property keys, errors *)

(** Instances handed out by factories.  Objects carry their identity. *)
Inductive value : Type :=
  | VUndefined
  | VNull
  | VBoolean (b : bool)
  | VNumber (n : Z)
  | VString (s : string)
  | VObject (ref : nat).

#[global] Instance value_eq_dec : EqDecision value.
Proof. solve_decision. Defined.

(** A property key is a string or a symbol. *)
Inductive key : Type :=
  | KString (s : string)
  | KSymbol (description : string).

#[global] Instance key_eq_dec : EqDecision key.
Proof. solve_decision. Defined.

(** What can be thrown: the error built by [throwError] (an [Error] whose
    [name] is ["ResolveError"]), a [TypeError], or whatever a factory throws. *)
Inductive error : Type :=
  | ResolveError (message : string)
  | TypeError
  | UserError (thrown : value).

#[global] Instance error_eq_dec : EqDecision error.
Proof. solve_decision. Defined.

(** [Exhausted] is not a JavaScript completion: it marks a run cut short by
    the nesting bound of [createContext] below. *)
Inductive completion : Type :=
  | Normal (v : value)
  | Throw (e : error)
  | Exhausted.

#[global] Instance completion_eq_dec : EqDecision completion.
Proof. solve_decision. Defined.

(** [throwError message]: the error that is thrown. *)
Definition throwError (message : string) : error := ResolveError message.

(** Conversion of a property key inside a template literal: a symbol cannot
    be converted to a string, the conversion throws a [TypeError]. *)
Definition ToString (k : key) : error + string :=
  match k with
  | KString s => inr s
  | KSymbol _ => inl TypeError
  end.

(** ** State *)

(** [scope.name]: [null] by default, a string when labelled. *)
Inductive label : Type :=
  | LNull
  | LUndefined
  | LString (s : string).

(** Conversion of the label inside a template literal. *)
Definition label_text (l : label) : string :=
  match l with
  | LNull => "null"
  | LUndefined => "undefined"
  | LString s => s
  end.

(** What lives as long as the provider: its singleton cache, and the heap.
    [calls] records every invocation [create(context)] by service name (the
    [called] counters of the test suite); [allocated] is the number of objects
    created so far, the next object gets this identity. *)
Record ProviderState : Type := mkProvider {
  calls : list string;
  allocated : nat;
  retainedSingleton : gmap string value;
}.

(** The private fields of a [ServiceScope] and its public [name]. *)
Record ScopeState : Type := mkScope {
  name : label;
  retainedScoped : gmap string value;
  path : list string;
}.

(** A scope at work: its own fields and the provider it shares. *)
Record state : Type := mkState {
  provider : ProviderState;
  scope : ScopeState;
}.

(** [map.get(name)]: [undefined] when the key is absent. *)
Definition Map_get (m : gmap string value) (k : string) : value :=
  default VUndefined (m !! k).

Definition alloc (st : state) : state :=
  mkState (mkProvider (calls (provider st)) (S (allocated (provider st)))
                      (retainedSingleton (provider st)))
          (scope st).

Definition called (n : string) (st : state) : state :=
  mkState (mkProvider (calls (provider st) ++ [n]) (allocated (provider st))
                      (retainedSingleton (provider st)))
          (scope st).

(** [this.#path.push(name)] *)
Definition push (n : string) (st : state) : state :=
  mkState (provider st)
          (mkScope (name (scope st)) (retainedScoped (scope st)) (path (scope st) ++ [n])).

(** [this.#path.pop()] *)
Definition pop (st : state) : state :=
  mkState (provider st)
          (mkScope (name (scope st)) (retainedScoped (scope st)) (removelast (path (scope st)))).

(** [this.#retainedSingleton.set(name, instance)] *)
Definition setSingleton (n : string) (v : value) (st : state) : state :=
  mkState (mkProvider (calls (provider st)) (allocated (provider st))
                      (<[n := v]> (retainedSingleton (provider st))))
          (scope st).

(** [this.#retainedScoped.set(name, instance)] *)
Definition setScoped (n : string) (v : value) (st : state) : state :=
  mkState (provider st)
          (mkScope (name (scope st)) (<[n := v]> (retainedScoped (scope st))) (path (scope st))).

(** ** Contexts and factory code *)

(** The proxy made by [createContext]: its target object and the only trap
    of its handler, [get].  No [ownKeys] or [getOwnPropertyDescriptor] trap
    exists, so key enumeration falls through to the target. *)
Record Context : Type := mkContext {
  target : gmap string value;
  get : key → state → completion * state;
}.

(** The body of a factory or of a constructor, as far as the container sees
    it: it reads properties of the context it is given (and may catch what a
    read throws), creates objects, and returns or throws. *)
Inductive code : Type :=
  | Return (v : value)
  | Raise (e : error)
  | New (k : nat → code)
  | Read (name : key) (k : completion → code).

(** Reads [name] and lets an exception pass. *)
Definition Dep (n : string) (k : value → code) : code :=
  Read (KString n) (fun r =>
    match r with
    | Normal v => k v
    | Throw e => Raise e
    | Exhausted => Raise TypeError
    end).

Fixpoint exec (context : Context) (c : code) (st : state) : completion * state :=
  match c with
  | Return v => (Normal v, st)
  | Raise e => (Throw e, st)
  | New k => exec context (k (allocated (provider st))) (alloc st)
  | Read n k =>
      match get context n st with
      | (Exhausted, st') => (Exhausted, st')
      | (r, st') => exec context (k r) st'
      end
  end.

Fixpoint bind (c : code) (f : value → code) : code :=
  match c with
  | Return v => f v
  | Raise e => Raise e
  | New k => New (fun r => bind (k r) f)
  | Read n k => Read n (fun r => bind (k r) f)
  end.

(** ** ServiceFactory *)

(** A registration target: a function, with what [from] inspects of it
    ([target.prototype !== undefined], and whether the own [prototype]
    property is writable), or anything else. *)
Inductive Target : Type :=
  | Function (prototype_defined prototype_writable : bool) (body : code)
  | NotFunction (v : value).

(** [new target(context)]: a fresh object is [this]; an object returned by
    the constructor replaces it. *)
Definition construct (body : code) : code :=
  New (fun this =>
    bind body (fun v =>
      Return (match v with VObject _ => v | _ => VObject this end))).

(** [typeof target] *)
Definition typeof (t : Target) : string :=
  match t with
  | Function _ _ _ => "function"
  | NotFunction VUndefined => "undefined"
  | NotFunction VNull => "object"
  | NotFunction (VBoolean _) => "boolean"
  | NotFunction (VNumber _) => "number"
  | NotFunction (VString _) => "string"
  | NotFunction (VObject _) => "object"
  end.

Module ServiceFactory.

Definition from (t : Target) : error + code :=
  if negb (String.eqb (typeof t) "function") then inl TypeError
  else
    match t with
    | Function prototype_defined prototype_writable body =>
        inr (if prototype_defined && negb prototype_writable
             then construct body
             else body)
    | NotFunction _ => inl TypeError
    end.

End ServiceFactory.

(** ** Registry *)

Inductive Lifetime : Type := Singleton | Scoped | Transient.

#[global] Instance Lifetime_eq_dec : EqDecision Lifetime.
Proof. solve_decision. Defined.

Record Descriptor : Type := mkDescriptor {
  lifetime : Lifetime;
  create : code;
}.

Module ServiceRegistryBuilder.

(** [#add(name, create, lifetime)] on the builder's [#descriptors]. *)
Definition add (n : string) (create : code) (lifetime : Lifetime)
    (b : gmap string Descriptor) : gmap string Descriptor :=
  <[n := mkDescriptor lifetime create]> b.

Definition addWith (lifetime : Lifetime) (n : string) (t : Target)
    (b : gmap string Descriptor) : error + gmap string Descriptor :=
  match ServiceFactory.from t with
  | inl e => inl e
  | inr create => inr (add n create lifetime b)
  end.

Definition addSingleton := addWith Singleton.
Definition addScoped := addWith Scoped.
Definition addTransient := addWith Transient.

Definition build (b : gmap string Descriptor) : gmap string Descriptor := b.

End ServiceRegistryBuilder.

Module ServiceRegistry.

(** [new ServiceRegistry(build)]: the callback works on a new builder; what
    it throws escapes the constructor. *)
Definition new (build : gmap string Descriptor → error + gmap string Descriptor)
    : error + gmap string Descriptor :=
  match build ∅ with
  | inl e => inl e
  | inr b => inr (ServiceRegistryBuilder.build b)
  end.

(** [registry.names], in no particular order here. *)
Definition names (reg : gmap string Descriptor) : list string :=
  (map_to_list reg).*1.

Definition get (reg : gmap string Descriptor) (n : string) : error + Descriptor :=
  match reg !! n with
  | None => inl (throwError ("Invalid service name: " +:+ n))
  | Some descriptor => inr descriptor
  end.

Definition has (reg : gmap string Descriptor) (n : string) : bool :=
  bool_decide (is_Some (reg !! n)).

End ServiceRegistry.

(** ** ServiceScope *)

(** [array.lastIndexOf(x)], [-1] when absent. *)
Fixpoint lastIndexOf (l : list string) (x : string) : Z :=
  match l with
  | [] => (-1)%Z
  | y :: l' =>
      let r := lastIndexOf l' x in
      if (r =? -1)%Z then (if decide (x = y) then 0 else -1)%Z else (r + 1)%Z
  end.

(** The loop over [index2] shared by both guards: every entry followed by
    [" -> "], the entry at [index1] in brackets. *)
Fixpoint trace (p : list string) (index1 index2 : Z) : string :=
  match p with
  | [] => ""
  | x :: p' =>
      (if (index1 =? index2)%Z then "[" +:+ x +:+ "]" else x)
        +:+ " -> " +:+ trace p' index1 (index2 + 1)%Z
  end.

Definition throwErrorIfCircularReferenced (n : string) (sc : ScopeState) : option error :=
  let index1 := lastIndexOf (path sc) n in
  if (index1 =? -1)%Z then None
  else
    Some (throwError (
      (match name sc with
       | LNull => "/(unnamed)/ "
       | l => "/" +:+ label_text l +:+ "/ "
       end)
      +:+ "Invalid service resolution" +:+ ": "
      +:+ trace (path sc) index1 0%Z
      +:+ "[" +:+ n +:+ "]")).

(** The [while (0 <= --index1)] loop; [visit] is the value of [index1]
    before the decrement. *)
Fixpoint lifetimeWalk (reg : gmap string Descriptor) (n : string) (sc : ScopeState)
    (visit : nat) : option error :=
  match visit with
  | O => None
  | S index1 =>
      match path sc !! index1 with
      | None => Some (throwError "Invalid service name: undefined")
      | Some entry =>
          match ServiceRegistry.get reg entry with
          | inl e => Some e
          | inr descriptor =>
              match lifetime descriptor with
              | Singleton =>
                  Some (throwError (
                    (match name sc with
                     | LUndefined => "/(unnamed)/ "
                     | l => "/" +:+ label_text l +:+ "/ "
                     end)
                    +:+ "Invalid service lifetime" +:+ ": "
                    +:+ trace (path sc) (Z.of_nat index1) 0%Z
                    +:+ "[" +:+ n +:+ "]"))
              | _ => lifetimeWalk reg n sc index1
              end
          end
      end
  end.

Definition throwErrorIfLifetimeExceeded (reg : gmap string Descriptor) (n : string)
    (sc : ScopeState) : option error :=
  lifetimeWalk reg n sc (length (path sc)).

(** [this.#path.push(name); try { instance = create(context); }
     finally { this.#path.pop(); }], the block that the three branches of
    [resolve] share; [called] notes the invocation of [create] in the log. *)
Definition invoke (context : Context) (n : string) (create : code) (st : state)
    : completion * state :=
  let '(r, st') := exec context create (called n (push n st)) in
  (r, pop st').

Definition resolve (reg : gmap string Descriptor) (n : string) (context : Context)
    (st : state) : completion * state :=
  match throwErrorIfCircularReferenced n (scope st) with
  | Some e => (Throw e, st)
  | None =>
      match ServiceRegistry.get reg n with
      | inl e => (Throw e, st)
      | inr descriptor =>
          match lifetime descriptor with
          | Singleton =>
              let instance := Map_get (retainedSingleton (provider st)) n in
              if decide (instance = VUndefined) then
                match invoke context n (create descriptor) st with
                | (Normal instance, st') => (Normal instance, setSingleton n instance st')
                | abrupt => abrupt
                end
              else (Normal instance, st)
          | Scoped =>
              let instance := Map_get (retainedScoped (scope st)) n in
              if decide (instance = VUndefined) then
                match throwErrorIfLifetimeExceeded reg n (scope st) with
                | Some e => (Throw e, st)
                | None =>
                    match invoke context n (create descriptor) st with
                    | (Normal instance, st') => (Normal instance, setScoped n instance st')
                    | abrupt => abrupt
                    end
                end
              else (Normal instance, st)
          | Transient => invoke context n (create descriptor) st
          end
      end
  end.

(** A property of an exotic context: a plain value or a getter. *)
Inductive Property : Type :=
  | Data (v : value)
  | Accessor (getter : code).

(** [exoticContext[name]] *)
Definition readProperty (context : Context) (p : Property) (st : state)
    : completion * state :=
  match p with
  | Data v => (Normal v, st)
  | Accessor getter => exec context getter st
  end.

(** The [get] trap of the handler; [context] is the proxy itself, which the
    trap hands to [resolve] and so to every factory.  The exotic context is
    given by the properties that [name in exoticContext] finds. *)
Definition handlerGet (reg : gmap string Descriptor)
    (exoticContext : option (gmap string Property)) (context : Context)
    (k : key) (st : state) : completion * state :=
  match k with
  | KSymbol _ =>
      match ToString k with
      | inl e => (Throw e, st)
      | inr s => (Throw (throwError ("Invalid service name: " +:+ s)), st)
      end
  | KString n =>
      if decide (n = "then") then (Normal VUndefined, st)
      else
        match exoticContext ≫= (fun e => e !! n) with
        | Some p => readProperty context p st
        | None => resolve reg n context st
        end
  end.

(** [createContext(exoticContext)]: a proxy over the empty object.  [fuel]
    bounds how deep property reads may nest: the proxy seen by the factories
    has one less, and with none left a read ends [Exhausted]. *)
Fixpoint createContext (fuel : nat) (reg : gmap string Descriptor)
    (exoticContext : option (gmap string Property)) : Context :=
  mkContext ∅ (fun k st =>
    match fuel with
    | O => (Exhausted, st)
    | S fuel' => handlerGet reg exoticContext (createContext fuel' reg exoticContext) k st
    end).

(** ** ServiceProvider *)

(** A provider with the scopes begun from it. *)
Record World : Type := mkWorld {
  shared : ProviderState;
  scopes : list ScopeState;
}.

Module ServiceProvider.

(** [new ServiceProvider(registry)] *)
Definition new : World := mkWorld (mkProvider [] 0 ∅) [].

(** [new ServiceScope(registry, retainedSingleton)] *)
Definition newScope : ScopeState := mkScope LNull ∅ [].

(** [beginScope()]: the scope is known by its position. *)
Definition beginScope (w : World) : nat * World :=
  (length (scopes w), mkWorld (shared w) (scopes w ++ [newScope])).

End ServiceProvider.

(** ** createProvider *)

(** A build callback that chains registrations on the builder. *)
Fixpoint chain (rs : list (Lifetime * string * Target)) (b : gmap string Descriptor)
    : error + gmap string Descriptor :=
  match rs with
  | [] => inr b
  | (l, n, t) :: rs' =>
      match ServiceRegistryBuilder.addWith l n t b with
      | inl e => inl e
      | inr b' => chain rs' b'
      end
  end.

(** [createProvider(registryOrBuild)]: the registry and the new provider. *)
Definition createProvider
    (registryOrBuild : (gmap string Descriptor → error + gmap string Descriptor)
                       + gmap string Descriptor)
    : error + gmap string Descriptor * World :=
  match registryOrBuild with
  | inl build =>
      match ServiceRegistry.new build with
      | inl e => inl e
      | inr reg => inr (reg, ServiceProvider.new)
      end
  | inr reg => inr (reg, ServiceProvider.new)
  end.

(** ** Enumeration of a context *)





(** ** Programs over a provider *)

(** What a caller does with a provider: begin a scope, or read a property on
    a context created from the scope numbered [i]. *)
Inductive Op : Type :=
  | BeginScope
  | Access (i : nat) (exoticContext : option (gmap string Property)) (k : key).

Definition perform (fuel : nat) (reg : gmap string Descriptor) (op : Op) (w : World)
    : option completion * World :=
  match op with
  | BeginScope => (None, (ServiceProvider.beginScope w).2)
  | Access i exoticContext k =>
      match scopes w !! i with
      | None => (None, w)
      | Some sc =>
          let '(r, st) := get (createContext fuel reg exoticContext) k (mkState (shared w) sc) in
          (Some r, mkWorld (provider st) (<[i := scope st]> (scopes w)))
      end
  end.

(** Runs the operations in order; the log pairs every read with its
    completion. *)
Fixpoint run (fuel : nat) (reg : gmap string Descriptor) (ops : list Op) (w : World)
    : list (Op * completion) * World :=
  match ops with
  | [] => ([], w)
  | op :: ops' =>
      let '(r, w1) := perform fuel reg op w in
      let '(log, w2) := run fuel reg ops' w1 in
      (match r with Some c => (op, c) :: log | None => log end, w2)
  end.

(** * Vocabulary of the statements *)

Definition lifetimeOf (reg : gmap string Descriptor) (n : string) : option Lifetime :=
  lifetime <$> reg !! n.

(** How often the factory registered under [n] has been invoked so far. *)
Definition calledTimes (n : string) (p : ProviderState) : nat :=
  length (filter (λ x, x = n) (calls p)).

Definition invocations (n : string) (st : state) : nat :=
  calledTimes n (provider st).

(** [resolve] would reach construction for [n], registered with lifetime [l]:
    [n] is not under construction and its cache has nothing to return. *)
Definition missing (reg : gmap string Descriptor) (st : state) (n : string)
    (l : Lifetime) : Prop :=
  (n ∉ path (scope st)) ∧ lifetimeOf reg n = Some l ∧
  (match l with
   | Singleton => Map_get (retainedSingleton (provider st)) n = VUndefined
   | Scoped => Map_get (retainedScoped (scope st)) n = VUndefined
   | Transient => True
   end).

(** What any amount of resolution work may change between two states of one
    scope: the path and the label are back where they were; the factory of a
    name is invoked, and a cache entry written, only for a name that was
    [missing]. *)
Record evolves (reg : gmap string Descriptor) (st st' : state) : Prop := mkEvolves {
  ev_path : path (scope st') = path (scope st);
  ev_name : name (scope st') = name (scope st);
  ev_allocated : allocated (provider st) ≤ allocated (provider st');
  ev_more : ∀ n, invocations n st ≤ invocations n st';
  ev_calls : ∀ n, (∀ l, ¬ missing reg st n l) → invocations n st' = invocations n st;
  ev_singleton : ∀ n, ¬ missing reg st n Singleton →
    retainedSingleton (provider st') !! n = retainedSingleton (provider st) !! n;
  ev_scoped : ∀ n, ¬ missing reg st n Scoped →
    retainedScoped (scope st') !! n = retainedScoped (scope st) !! n;
}.

(** A context all of whose reads keep to [evolves]. *)
Definition framed (reg : gmap string Descriptor) (context : Context) : Prop :=
  ∀ k st, evolves reg st (get context k st).2.

(** One run of the push, create, pop block for [n], seen from outside. *)
Record invoked (reg : gmap string Descriptor) (n : string) (st st' : state) : Prop := mkInvoked {
  in_path : path (scope st') = path (scope st);
  in_name : name (scope st') = name (scope st);
  in_allocated : allocated (provider st) ≤ allocated (provider st');
  in_once : invocations n st' = invocations n st + 1;
  in_singleton : retainedSingleton (provider st') !! n = retainedSingleton (provider st) !! n;
  in_scoped : retainedScoped (scope st') !! n = retainedScoped (scope st) !! n;
  in_more : ∀ m, invocations m st ≤ invocations m st';
  in_calls : ∀ m, m ≠ n → (∀ l, ¬ missing reg st m l) → invocations m st' = invocations m st;
  in_singleton_other : ∀ m, m ≠ n → ¬ missing reg st m Singleton →
    retainedSingleton (provider st') !! m = retainedSingleton (provider st) !! m;
  in_scoped_other : ∀ m, m ≠ n → ¬ missing reg st m Scoped →
    retainedScoped (scope st') !! m = retainedScoped (scope st) !! m;
}.

(** What [resolve] does with the outcome of the construction block: a normal
    result is stored for a singleton or a scoped service. *)
Definition stored (l : Lifetime) (n : string) (o : completion * state) : completion * state :=
  match o.1, l with
  | Normal v, Singleton => (Normal v, setSingleton n v o.2)
  | Normal v, Scoped => (Normal v, setScoped n v o.2)
  | _, _ => o
  end.

(** No resolution is in progress in any scope. *)
Definition idle (w : World) : Prop := Forall (λ sc, path sc = []) (scopes w).

(** A read of [n] on a context with this exotic context reaches [resolve]. *)
Definition reaches (exoticContext : option (gmap string Property)) (n : string) : Prop :=
  n ≠ "then" ∧ exoticContext ≫= (λ e, e !! n) = None.

(** The scope numbered [i] holds [v] for [n] in its scoped cache. *)
Definition cachedIn (n : string) (v : value) (i : nat) (w : World) : Prop :=
  ∃ sc, scopes w !! i = Some sc ∧ retainedScoped sc !! n = Some v.

(** The operation works on the scope numbered [i], if on any. *)
Definition within (i : nat) (op : Op) : Prop :=
  match op with
  | BeginScope => True
  | Access j _ _ => j = i
  end.



(** Entries each followed by an arrow, as both guards print them. *)
Definition arrows (l : list string) : string :=
  foldr (λ x acc, x +:+ " -> " +:+ acc) "" l.

(** The prefix of a circular-reference message. *)
Definition resolutionTag (l : label) : string :=
  match l with
  | LNull => "/(unnamed)/ "
  | LUndefined => "/undefined/ "
  | LString s => "/" +:+ s +:+ "/ "
  end.

(** The prefix of a lifetime message. *)
Definition lifetimeTag (l : label) : string :=
  match l with
  | LNull => "/null/ "
  | LUndefined => "/(unnamed)/ "
  | LString s => "/" +:+ s +:+ "/ "
  end.

(** Registered with a lifetime other than singleton. *)
Definition shorter (reg : gmap string Descriptor) (m : string) : Prop :=
  ∃ d, reg !! m = Some d ∧ lifetime d ≠ Singleton.

(** ** Example data *)

(** A factory that returns a new object. *)
Definition plain : code := New (fun r => Return (VObject r)).

(** A small registry for the examples: [s] is a singleton built from the
    transient [t]; [y] is a singleton built from the scoped [x]; [z] needs
    itself, [p] needs [q] and [q] needs [p]; [u] and [w] return [undefined];
    [f] and [g] throw; one service is registered under the name ["then"]. *)
Definition demo : gmap string Descriptor :=
  list_to_map [
    ("s", mkDescriptor Singleton (Dep "t" Return));
    ("t", mkDescriptor Transient plain);
    ("x", mkDescriptor Scoped plain);
    ("y", mkDescriptor Singleton (Dep "x" Return));
    ("z", mkDescriptor Transient (Dep "z" Return));
    ("u", mkDescriptor Singleton (Return VUndefined));
    ("f", mkDescriptor Singleton (Raise (UserError (VString "boom"))));
    ("g", mkDescriptor Scoped (Raise (UserError (VString "boom"))));
    ("w", mkDescriptor Scoped (Return VUndefined));
    ("p", mkDescriptor Transient (Dep "q" Return));
    ("q", mkDescriptor Scoped (Dep "p" Return));
    ("then", mkDescriptor Transient plain)
  ].

(** A new provider with one new scope. *)
Definition fresh : state := mkState (mkProvider [] 0 ∅) ServiceProvider.newScope.

(** The scope while the names of [p] are under construction. *)
Definition under (p : list string) : state :=
  mkState (mkProvider p 0 ∅) (mkScope LNull ∅ p).

(** A provider with one scope begun. *)
Definition begun : World := (ServiceProvider.beginScope ServiceProvider.new).2.

(** Closes a decidable goal about concrete data by evaluation. *)
Ltac by_decide :=
  simpl; refine (bool_decide_unpack _ _); vm_compute; exact I.

(** ** Vocabulary of the further properties *)

(** The value is an object. *)
Definition isObject (v : value) : Prop := ∃ r, v = VObject r.

(** Every cache holds only names registered with the lifetime of the
    cache. *)
Definition tidy (reg : gmap string Descriptor) (w : World) : Prop :=
  (∀ n, is_Some (retainedSingleton (shared w) !! n) → lifetimeOf reg n = Some Singleton)
  ∧ Forall (λ sc, ∀ n, is_Some (retainedScoped sc !! n) → lifetimeOf reg n = Some Scoped)
      (scopes w).

(** The names that a chain of registrations registers. *)
Definition registeredNames (rs : list (Lifetime * string * Target)) : list string :=
  (λ r, r.1.2) <$> rs.

(** The operation reads on another scope than the one numbered [i], or
    begins a scope. *)
Definition elsewhere (i : nat) (op : Op) : Prop :=
  match op with
  | BeginScope => True
  | Access j _ _ => j ≠ i
  end.

(** The classes of the test suite: [A] needs nothing, [B] reads [a], [C]
    reads [a] and [b]; and its registry of mixed lifetimes. *)
Definition classA : Target := Function true false (Return VUndefined).

Definition classB : Target :=
  Function true false (Dep "a" (fun _ => Return VUndefined)).

Definition classC : Target :=
  Function true false (Dep "a" (fun _ => Dep "b" (fun _ => Return VUndefined))).

Definition mixedRegistrations : list (Lifetime * string * Target) :=
  [(Singleton, "a", classA); (Scoped, "b", classB); (Transient, "c", classC)].

Definition mixed : gmap string Descriptor :=
  match ServiceRegistry.new (chain mixedRegistrations) with
  | inr reg => reg
  | inl _ => ∅
  end.

(** * Factories that leave their scope

    A factory is a closure.  Besides the context it is handed it can read a
    context that it got hold of elsewhere (captured, or kept by an instance),
    of any scope of the provider, and it can begin a scope.  The definitions
    of this part are those of [ServiceScope] once more, over the provider
    with all its scopes: a context is known by the number of its scope. *)

(** A descriptor as the lifetime guard sees it: the guard reads nothing but
    the lifetime. *)
Definition lifetimeOnly (l : Lifetime) : Descriptor := mkDescriptor l (Return VUndefined).

Module Across.

(** The body of a factory: as [code] above, and [ReadOn i] reads a property
    of a context made by [createContext()] on the scope numbered [i],
    [BeginScope] is [provider.beginScope()]. *)
Inductive code : Type :=
  | Return (v : value)
  | Raise (e : error)
  | New (k : nat → code)
  | Read (name : key) (k : completion → code)
  | ReadOn (i : nat) (name : key) (k : completion → code)
  | BeginScope (k : nat → code).

Record Descriptor : Type := mkDescriptor {
  lifetime : Lifetime;
  create : code;
}.

(** The [get] trap of a proxy, over the provider and all its scopes (the
    target of the proxy plays no part here). *)
Definition Context : Type := key → World → completion * World.

(** The provider after the scope numbered [i] has worked. *)
Definition unfocus (i : nat) (st : state) (w : World) : World :=
  mkWorld (provider st) (<[i := scope st]> (scopes w)).

(** A step of the scope numbered [i]. *)
Definition onScope (i : nat) (f : state → state) (w : World) : World :=
  match scopes w !! i with
  | Some sc => unfocus i (f (mkState (shared w) sc)) w
  | None => w
  end.

(** A new object. *)
Definition allocate (w : World) : World :=
  mkWorld (mkProvider (calls (shared w)) (S (allocated (shared w)))
                      (retainedSingleton (shared w)))
          (scopes w).

(** [context] is the proxy that the body is handed, [contextOf i] a context
    made by [createContext()] on the scope numbered [i]. *)
Fixpoint exec (context : Context) (contextOf : nat → Context) (c : code) (w : World)
    : completion * World :=
  match c with
  | Return v => (Normal v, w)
  | Raise e => (Throw e, w)
  | New k => exec context contextOf (k (allocated (shared w))) (allocate w)
  | Read n k =>
      match context n w with
      | (Exhausted, w') => (Exhausted, w')
      | (r, w') => exec context contextOf (k r) w'
      end
  | ReadOn i n k =>
      match contextOf i n w with
      | (Exhausted, w') => (Exhausted, w')
      | (r, w') => exec context contextOf (k r) w'
      end
  | BeginScope k =>
      exec context contextOf (k (ServiceProvider.beginScope w).1)
           (ServiceProvider.beginScope w).2
  end.

Fixpoint bind (c : code) (f : value → code) : code :=
  match c with
  | Return v => f v
  | Raise e => Raise e
  | New k => New (fun r => bind (k r) f)
  | Read n k => Read n (fun r => bind (k r) f)
  | ReadOn i n k => ReadOn i n (fun r => bind (k r) f)
  | BeginScope k => BeginScope (fun i => bind (k i) f)
  end.

(** [new target(context)] *)
Definition construct (body : code) : code :=
  New (fun this =>
    bind body (fun v =>
      Return (match v with VObject _ => v | _ => VObject this end))).

(** The registry as the lifetime guard reads it. *)
Definition lifetimes (reg : gmap string Descriptor) :=
  (λ descriptor, lifetimeOnly (lifetime descriptor)) <$> reg.

(** The push, create, pop block of the scope numbered [i]. *)
Definition invoke (context : Context) (contextOf : nat → Context) (i : nat) (n : string)
    (create : code) (w : World) : completion * World :=
  let '(r, w') := exec context contextOf create
                    (onScope i (called n) (onScope i (push n) w)) in
  (r, onScope i pop w').

(** [resolve] of the scope numbered [i].  A context comes from a scope that
    was begun; for a number that no scope has, the read is cut short. *)
Definition resolve (reg : gmap string Descriptor) (i : nat) (n : string)
    (context : Context) (contextOf : nat → Context) (w : World) : completion * World :=
  match scopes w !! i with
  | None => (Exhausted, w)
  | Some sc =>
      match throwErrorIfCircularReferenced n sc with
      | Some e => (Throw e, w)
      | None =>
          match reg !! n with
          | None => (Throw (throwError ("Invalid service name: " +:+ n)), w)
          | Some descriptor =>
              match lifetime descriptor with
              | Singleton =>
                  let instance := Map_get (retainedSingleton (shared w)) n in
                  if decide (instance = VUndefined) then
                    match invoke context contextOf i n (create descriptor) w with
                    | (Normal instance, w') =>
                        (Normal instance, onScope i (setSingleton n instance) w')
                    | abrupt => abrupt
                    end
                  else (Normal instance, w)
              | Scoped =>
                  let instance := Map_get (retainedScoped sc) n in
                  if decide (instance = VUndefined) then
                    match throwErrorIfLifetimeExceeded (lifetimes reg) n sc with
                    | Some e => (Throw e, w)
                    | None =>
                        match invoke context contextOf i n (create descriptor) w with
                        | (Normal instance, w') =>
                            (Normal instance, onScope i (setScoped n instance) w')
                        | abrupt => abrupt
                        end
                    end
                  else (Normal instance, w)
              | Transient => invoke context contextOf i n (create descriptor) w
              end
          end
      end
  end.

Inductive Property : Type :=
  | Data (v : value)
  | Accessor (getter : code).

Definition readProperty (context : Context) (contextOf : nat → Context) (p : Property)
    (w : World) : completion * World :=
  match p with
  | Data v => (Normal v, w)
  | Accessor getter => exec context contextOf getter w
  end.

Definition handlerGet (reg : gmap string Descriptor) (i : nat)
    (exoticContext : option (gmap string Property))
    (context : Context) (contextOf : nat → Context) (k : key) (w : World)
    : completion * World :=
  match k with
  | KSymbol _ =>
      match ToString k with
      | inl e => (Throw e, w)
      | inr s => (Throw (throwError ("Invalid service name: " +:+ s)), w)
      end
  | KString n =>
      if decide (n = "then") then (Normal VUndefined, w)
      else
        match exoticContext ≫= (fun e => e !! n) with
        | Some p => readProperty context contextOf p w
        | None => resolve reg i n context contextOf w
        end
  end.

(** [createContext(exoticContext)] on the scope numbered [i].  The factories
    are handed the proxy itself; the contexts of other scopes that they may
    read are made by [createContext()].  As above, [fuel] bounds how deep
    reads nest. *)
Fixpoint createContext (fuel : nat) (reg : gmap string Descriptor) (i : nat)
    (exoticContext : option (gmap string Property)) : Context :=
  fun k w =>
    match fuel with
    | O => (Exhausted, w)
    | S fuel' =>
        handlerGet reg i exoticContext (createContext fuel' reg i exoticContext)
          (fun j => createContext fuel' reg j None) k w
    end.

(** What a caller does with the provider. *)
Inductive Op : Type :=
  | Begin
  | Access (i : nat) (exoticContext : option (gmap string Property)) (k : key).

Definition perform (fuel : nat) (reg : gmap string Descriptor) (op : Op) (w : World)
    : option completion * World :=
  match op with
  | Begin => (None, (ServiceProvider.beginScope w).2)
  | Access i exoticContext k =>
      match scopes w !! i with
      | None => (None, w)
      | Some _ =>
          let '(r, w') := createContext fuel reg i exoticContext k w in
          (Some r, w')
      end
  end.

Fixpoint run (fuel : nat) (reg : gmap string Descriptor) (ops : list Op) (w : World)
    : list (Op * completion) * World :=
  match ops with
  | [] => ([], w)
  | op :: ops' =>
      let '(r, w1) := perform fuel reg op w in
      let '(log, w2) := run fuel reg ops' w1 in
      (match r with Some c => (op, c) :: log | None => log end, w2)
  end.

End Across.

(** ** What work on the provider may change *)

Definition lifetimeIn (reg : gmap string Across.Descriptor) (n : string) : option Lifetime :=
  Across.lifetime <$> reg !! n.

(** Nothing is going to be written under [n] in the scoped cache of a scope
    in this state: [n] is not a scoped name, or is cached there, or is under
    construction there. *)
Definition settledScoped (reg : gmap string Across.Descriptor) (sc : ScopeState)
    (n : string) : Prop :=
  lifetimeIn reg n ≠ Some Scoped ∨ Map_get (retainedScoped sc) n ≠ VUndefined ∨ n ∈ path sc.

(** Nothing is going to be written under [n] in the singleton cache. *)
Definition settledSingleton (reg : gmap string Across.Descriptor) (p : ProviderState)
    (n : string) : Prop :=
  lifetimeIn reg n ≠ Some Singleton ∨ Map_get (retainedSingleton p) n ≠ VUndefined.

(** No factory is going to be invoked for [n]: nothing is registered under
    [n], or [n] is a cached singleton. *)
Definition atRest (reg : gmap string Across.Descriptor) (p : ProviderState)
    (n : string) : Prop :=
  reg !! n = None
  ∨ (lifetimeIn reg n = Some Singleton ∧ Map_get (retainedSingleton p) n ≠ VUndefined).

(** What any amount of work may change in a provider, whatever the factories
    read: every scope has its path and label back, scopes are added with an
    empty path, invocations are only added, and a cache entry is written only
    where it was not settled. *)
Record grows (reg : gmap string Across.Descriptor) (w w' : World) : Prop := mkGrows {
  gr_scope : ∀ j sc, scopes w !! j = Some sc →
    ∃ sc', scopes w' !! j = Some sc' ∧ path sc' = path sc ∧ name sc' = name sc
      ∧ ∀ n, settledScoped reg sc n → retainedScoped sc' !! n = retainedScoped sc !! n;
  gr_new : ∀ j sc', scopes w' !! j = Some sc' → scopes w !! j = None →
    path sc' = []
    ∧ ∀ n, lifetimeIn reg n ≠ Some Scoped → retainedScoped sc' !! n = None;
  gr_allocated : allocated (shared w) ≤ allocated (shared w');
  gr_more : ∀ n, calledTimes n (shared w) ≤ calledTimes n (shared w');
  gr_calls : ∀ n, atRest reg (shared w) n →
    calledTimes n (shared w') = calledTimes n (shared w);
  gr_singleton : ∀ n, settledSingleton reg (shared w) n →
    retainedSingleton (shared w') !! n = retainedSingleton (shared w) !! n;
}.

(** A read of [n] on a context with this exotic context reaches [resolve]. *)
Definition reachesOn (exoticContext : option (gmap string Across.Property)) (n : string)
    : Prop :=
  n ≠ "then" ∧ exoticContext ≫= (λ e, e !! n) = None.

(** Every read of the context keeps to [grows]. *)
Definition bounded (reg : gmap string Across.Descriptor) (context : Across.Context) : Prop :=
  ∀ k w, grows reg w (context k w).2.

(** ** Factories that keep to their context *)

(** Factory code that reads the context it is handed, as code over the
    provider; and registries, exotic contexts and operations of such code. *)
Fixpoint lift (c : code) : Across.code :=
  match c with
  | Return v => Across.Return v
  | Raise e => Across.Raise e
  | New k => Across.New (fun r => lift (k r))
  | Read n k => Across.Read n (fun r => lift (k r))
  end.

Definition liftDescriptor (d : Descriptor) : Across.Descriptor :=
  Across.mkDescriptor (lifetime d) (lift (create d)).

Definition liftProperty (p : Property) : Across.Property :=
  match p with
  | Data v => Across.Data v
  | Accessor getter => Across.Accessor (lift getter)
  end.

Definition liftRegistry (reg : gmap string Descriptor) : gmap string Across.Descriptor :=
  liftDescriptor <$> reg.

Definition liftExotic (x : option (gmap string Property))
    : option (gmap string Across.Property) :=
  match x with
  | Some e => Some (liftProperty <$> e)
  | None => None
  end.

(** The outcome of the scope numbered [i], put back into the provider. *)
Definition unfocused (i : nat) (w : World) (o : completion * state) : completion * World :=
  (o.1, Across.unfocus i o.2 w).

(** The [get] trap over the provider does what the context [c] does on the
    scope numbered [i]. *)
Definition follows (i : nat) (context : Across.Context) (c : Context) : Prop :=
  ∀ k w sc, scopes w !! i = Some sc →
    context k w = unfocused i w (get c k (mkState (shared w) sc)).

Definition liftOp (op : Op) : Across.Op :=
  match op with
  | BeginScope => Across.Begin
  | Access i exoticContext k => Across.Access i (liftExotic exoticContext) k
  end.

(** ** Example data with factories that leave their scope *)

(** A factory that reads [n] on a context kept from the scope numbered [0],
    catches what the read throws, and returns a new object. *)
Definition again (n : string) : Across.code :=
  Across.ReadOn 0 (KString n) (fun _ => Across.New (fun r => Across.Return (VObject r))).

Definition reentrant : gmap string Across.Descriptor :=
  list_to_map [
    ("a", Across.mkDescriptor Singleton (again "a"));
    ("b", Across.mkDescriptor Scoped (again "b"));
    ("c", Across.mkDescriptor Transient (again "c"))
  ].

(** A provider with two scopes begun. *)
Definition begunTwice : World := (ServiceProvider.beginScope begun).2.

(** A transient [k] that hands out the singleton [s]. *)
Definition sharing : gmap string Descriptor :=
  list_to_map [
    ("s", mkDescriptor Singleton plain);
    ("k", mkDescriptor Transient (Dep "s" Return))
  ].

(** A factory that reads its own name on a context kept from the scope
    numbered [0]: it throws if the read gives an instance, and returns a new
    object if the read throws. *)
Definition unless (n : string) : Across.code :=
  Across.ReadOn 0 (KString n) (fun r =>
    match r with
    | Normal _ => Across.Raise (UserError (VString "boom"))
    | _ => Across.New (fun r => Across.Return (VObject r))
    end).

Definition stubborn : gmap string Across.Descriptor :=
  {["a" := Across.mkDescriptor Singleton (unless "a")]}.

Create HintDb frame.

(** * Properties *)

(** ** The path guards *)

Lemma lastIndexOf_lower (l : list string) (x : string) : (-1 ≤ lastIndexOf l x)%Z.
Proof.
  induction l as [|y l IH]; simpl; [lia|].
  destruct (Z.eqb_spec (lastIndexOf l x) (-1)); [case_decide|]; lia.
Qed.

Lemma lastIndexOf_absent (l : list string) (x : string) :
  lastIndexOf l x = (-1)%Z ↔ x ∉ l.
Proof.
  induction l as [|y l IH]; simpl.
  - split; [intros _; apply not_elem_of_nil | done].
  - pose proof (lastIndexOf_lower l x).
    rewrite not_elem_of_cons, <- IH.
    destruct (Z.eqb_spec (lastIndexOf l x) (-1)) as [E|E].
    + case_decide; split; intros; try lia; tauto.
    + split; [lia | tauto].
Qed.

Lemma circular_pass (n : string) (sc : ScopeState) :
  throwErrorIfCircularReferenced n sc = None ↔ n ∉ path sc.
Proof.
  unfold throwErrorIfCircularReferenced. rewrite <- lastIndexOf_absent.
  destruct (Z.eqb_spec (lastIndexOf (path sc) n) (-1)); split; done.
Qed.

(** ** The frame of resolution *)

(** What holds of every step holds of a whole run of factory code. *)
Lemma exec_preserves (R : state → state → Prop) (context : Context) :
  (∀ st, R st st) → (∀ a b c, R a b → R b c → R a c) → (∀ st, R st (alloc st)) →
  (∀ k st, R st (get context k st).2) →
  ∀ c st, R st (exec context c st).2.
Proof.
  intros Hrefl Htrans Halloc F.
  induction c as [v|e|k IH|n k IH]; intros st; simpl; [done|done|by eauto|].
  pose proof (F n st) as E. destruct (get context n st) as [r st'].
  destruct r; simpl in *; eauto.
Qed.

Section Frame.

Context (reg : gmap string Descriptor).

Lemma invocations_called (n m : string) (st : state) :
  invocations n (called m st) = invocations n st + (if decide (m = n) then 1 else 0).
Proof.
  unfold invocations, calledTimes, called. simpl. rewrite filter_app, length_app. f_equal.
  rewrite filter_cons, filter_nil. by case_decide.
Qed.

Lemma evolves_refl (st : state) : evolves reg st st.
Proof. by split. Qed.

Lemma missing_back (st st' : state) (n : string) (l : Lifetime) :
  evolves reg st st' → missing reg st' n l → missing reg st n l.
Proof.
  intros E (Hp & Hl & Hc). rewrite (ev_path _ _ _ E) in Hp.
  split; [done|]. split; [done|].
  destruct l; [| |done].
  - destruct (decide (Map_get (retainedSingleton (provider st)) n = VUndefined)) as [|Hn]; [done|].
    exfalso. apply Hn. unfold Map_get in *.
    rewrite <- (ev_singleton _ _ _ E n); [done|]. by intros (_ & _ & ?).
  - destruct (decide (Map_get (retainedScoped (scope st)) n = VUndefined)) as [|Hn]; [done|].
    exfalso. apply Hn. unfold Map_get in *.
    rewrite <- (ev_scoped _ _ _ E n); [done|]. by intros (_ & _ & ?).
Qed.

Lemma evolves_trans (st1 st2 st3 : state) :
  evolves reg st1 st2 → evolves reg st2 st3 → evolves reg st1 st3.
Proof.
  intros E1 E2. split.
  - by rewrite (ev_path _ _ _ E2), (ev_path _ _ _ E1).
  - by rewrite (ev_name _ _ _ E2), (ev_name _ _ _ E1).
  - pose proof (ev_allocated _ _ _ E1). pose proof (ev_allocated _ _ _ E2). lia.
  - intros n. pose proof (ev_more _ _ _ E1 n). pose proof (ev_more _ _ _ E2 n). lia.
  - intros n H. rewrite (ev_calls _ _ _ E2), (ev_calls _ _ _ E1); [done|done|].
    intros l M. apply (H l). by eapply missing_back.
  - intros n H. rewrite (ev_singleton _ _ _ E2), (ev_singleton _ _ _ E1); [done|done|].
    intros M. apply H. by eapply missing_back.
  - intros n H. rewrite (ev_scoped _ _ _ E2), (ev_scoped _ _ _ E1); [done|done|].
    intros M. apply H. by eapply missing_back.
Qed.

Lemma evolves_alloc (st : state) : evolves reg st (alloc st).
Proof. split; simpl; auto. Qed.

#[local] Hint Resolve evolves_refl evolves_trans evolves_alloc : frame.

Lemma exec_evolves (context : Context) :
  framed reg context → ∀ c st, evolves reg st (exec context c st).2.
Proof.
  intros F. apply exec_preserves; eauto with frame.
Qed.

Lemma missing_under (n m : string) (st : state) (l : Lifetime) :
  missing reg (called n (push n st)) m l → m ≠ n ∧ missing reg st m l.
Proof.
  intros (Hp & Hl & Hc). simpl in Hp. rewrite not_elem_of_app, not_elem_of_cons in Hp.
  destruct Hp as (Hp & Hne & _). split; [done|]. split; [done|]. split; [done|].
  by destruct l.
Qed.

Lemma invoke_invoked (context : Context) (n : string)
    (c : code) (st : state) :
  framed reg context → invoked reg n st (invoke context n c st).2.
Proof.
  intros F. unfold invoke.
  pose proof (exec_evolves context F c (called n (push n st))) as E.
  destruct (exec context c (called n (push n st))) as [r st2]. simpl in *.
  assert (Hn : ∀ l, ¬ missing reg (called n (push n st)) n l).
  { intros l M. by destruct (missing_under _ _ _ _ M). }
  split; simpl.
  - rewrite (ev_path _ _ _ E). simpl. apply removelast_last.
  - by rewrite (ev_name _ _ _ E).
  - apply (ev_allocated _ _ _ E).
  - change (invocations n st2 = invocations n st + 1).
    rewrite (ev_calls _ _ _ E n Hn), invocations_called. by rewrite decide_True.
  - by rewrite (ev_singleton _ _ _ E n (Hn _)).
  - by rewrite (ev_scoped _ _ _ E n (Hn _)).
  - intros m. change (invocations m st ≤ invocations m st2).
    pose proof (ev_more _ _ _ E m) as H. rewrite invocations_called in H.
    change (invocations m (push n st)) with (invocations m st) in H. lia.
  - intros m Hm H. change (invocations m st2 = invocations m st).
    rewrite (ev_calls _ _ _ E m), invocations_called.
    + rewrite decide_False by done. change (invocations m (push n st)) with (invocations m st). lia.
    + intros l M. apply (H l). by destruct (missing_under _ _ _ _ M).
  - intros m Hm H. rewrite (ev_singleton _ _ _ E m); [done|].
    intros M. apply H. by destruct (missing_under _ _ _ _ M).
  - intros m Hm H. rewrite (ev_scoped _ _ _ E m); [done|].
    intros M. apply H. by destruct (missing_under _ _ _ _ M).
Qed.

Lemma invoked_evolves (n : string) (st st' : state) (l : Lifetime) :
  missing reg st n l → invoked reg n st st' → evolves reg st st'.
Proof.
  intros M I. split; try apply I.
  - intros m H. apply (in_calls _ _ _ _ I); [|done]. intros ->. by apply (H l).
  - intros m H. destruct (decide (m = n)) as [->|]; [apply I | by apply (in_singleton_other _ _ _ _ I)].
  - intros m H. destruct (decide (m = n)) as [->|]; [apply I | by apply (in_scoped_other _ _ _ _ I)].
Qed.

Lemma evolves_setSingleton (n : string) (v : value) (st st' : state) :
  missing reg st n Singleton → evolves reg st st' → evolves reg st (setSingleton n v st').
Proof.
  intros M E. split; simpl; try apply E.
  intros m H. rewrite lookup_insert_ne; [by apply E|]. by intros ->.
Qed.

Lemma evolves_setScoped (n : string) (v : value) (st st' : state) :
  missing reg st n Scoped → evolves reg st st' → evolves reg st (setScoped n v st').
Proof.
  intros M E. split; simpl; try apply E.
  intros m H. rewrite lookup_insert_ne; [by apply E|]. by intros ->.
Qed.

Lemma get_lifetimeOf (n : string) (d : Descriptor) :
  ServiceRegistry.get reg n = inr d → reg !! n = Some d ∧ lifetimeOf reg n = Some (lifetime d).
Proof.
  unfold ServiceRegistry.get, lifetimeOf. destruct (reg !! n); [|done].
  intros [= ->]. done.
Qed.

Lemma resolve_evolves (context : Context) (n : string) (st : state) :
  framed reg context → evolves reg st (resolve reg n context st).2.
Proof.
  intros F. unfold resolve.
  destruct (throwErrorIfCircularReferenced n (scope st)) eqn:Hc; [apply evolves_refl|].
  apply circular_pass in Hc.
  destruct (ServiceRegistry.get reg n) as [e|d] eqn:Hg; [apply evolves_refl|].
  apply get_lifetimeOf in Hg as [_ Hl].
  pose proof (invoke_invoked context n (create d) st F) as I.
  destruct (lifetime d) eqn:Hd.
  - case_decide as Hu; [|apply evolves_refl].
    assert (M : missing reg st n Singleton) by done.
    destruct (invoke context n (create d) st) as [[v| |] st'];
      simpl in *; [apply evolves_setSingleton; [done|]|..]; by eapply invoked_evolves.
  - case_decide as Hu; [|apply evolves_refl].
    destruct (throwErrorIfLifetimeExceeded reg n (scope st)); [apply evolves_refl|].
    assert (M : missing reg st n Scoped) by done.
    destruct (invoke context n (create d) st) as [[v| |] st'];
      simpl in *; [apply evolves_setScoped; [done|]|..]; by eapply invoked_evolves.
  - assert (M : missing reg st n Transient) by done.
    by eapply invoked_evolves.
Qed.

Lemma createContext_framed
    (exoticContext : option (gmap string Property)) (fuel : nat) :
  framed reg (createContext fuel reg exoticContext).
Proof.
  induction fuel as [|fuel IH]; intros k st; simpl; [apply evolves_refl|].
  unfold handlerGet. destruct k as [n|d]; [|apply evolves_refl].
  case_decide; [apply evolves_refl|].
  destruct (exoticContext ≫= _) as [[v|getter]|]; simpl.
  - apply evolves_refl.
  - by apply exec_evolves.
  - by apply resolve_evolves.
Qed.

End Frame.

(** ** Error messages *)

Lemma append_assoc (a b c : string) : (a +:+ b) +:+ c = a +:+ (b +:+ c).
Proof.
  induction a as [|x a IH]; [done|].
  change (String x ((a +:+ b) +:+ c) = String x (a +:+ (b +:+ c))). by rewrite IH.
Qed.

Lemma trace_plain (p : list string) (index1 index2 : Z) :
  (index1 < index2)%Z → trace p index1 index2 = arrows p.
Proof.
  revert index2. induction p as [|x p IH]; intros index2 H; simpl; [done|].
  destruct (Z.eqb_spec index1 index2); [lia|]. rewrite IH; [done | lia].
Qed.

Lemma trace_marked (l1 l2 : list string) (x : string) (index2 : Z) :
  trace (l1 ++ x :: l2) (index2 + Z.of_nat (length l1)) index2
  = arrows l1 +:+ "[" +:+ x +:+ "]" +:+ " -> " +:+ arrows l2.
Proof.
  revert index2. induction l1 as [|y l1 IH]; intros index2; simpl.
  - rewrite Z.add_0_r, Z.eqb_refl, trace_plain by lia. by rewrite !append_assoc.
  - destruct (Z.eqb_spec (index2 + Z.of_nat (S (length l1))) index2); [lia|].
    replace (index2 + Z.of_nat (S (length l1)))%Z
      with ((index2 + 1) + Z.of_nat (length l1))%Z by lia.
    rewrite IH. by rewrite !append_assoc.
Qed.

Lemma lastIndexOf_split (l : list string) (x : string) :
  x ∈ l → ∃ l1 l2, l = l1 ++ x :: l2 ∧ (x ∉ l2) ∧ lastIndexOf l x = Z.of_nat (length l1).
Proof.
  induction l as [|y l IH]; intros H; [by apply elem_of_nil in H|]. simpl.
  destruct (Z.eqb_spec (lastIndexOf l x) (-1)) as [E|E].
  - apply lastIndexOf_absent in E. apply elem_of_cons in H as [->|H]; [|done].
    exists [], l. by rewrite decide_True.
  - destruct IH as (l1 & l2 & -> & H2 & ->).
    { destruct (decide (x ∈ l)) as [|H']; [done|]. by apply lastIndexOf_absent in H'. }
    exists (y :: l1), l2. split; [done|]. split; [done|]. simpl. lia.
Qed.

Lemma circular_message (n : string) (sc : ScopeState) (l1 l2 : list string) :
  path sc = l1 ++ n :: l2 → n ∉ l2 →
  throwErrorIfCircularReferenced n sc
  = Some (ResolveError (resolutionTag (name sc) +:+ "Invalid service resolution: "
        +:+ arrows l1 +:+ "[" +:+ n +:+ "] -> " +:+ arrows l2 +:+ "[" +:+ n +:+ "]")).
Proof.
  intros Hp Hn. unfold throwErrorIfCircularReferenced.
  destruct (lastIndexOf_split (path sc) n) as (k1 & k2 & Hk & Hk2 & ->).
  { rewrite Hp, elem_of_app, elem_of_cons. auto. }
  assert (k1 = l1 ∧ k2 = l2) as [-> ->].
  { rewrite Hp in Hk. clear -Hk Hn Hk2. revert k1 Hk.
    induction l1 as [|y l1 IH]; intros [|z k1] Hk; simpl in *.
    - by injection Hk as ->.
    - injection Hk as <- ->. exfalso. apply Hn.
      rewrite elem_of_app, elem_of_cons. auto.
    - injection Hk as -> <-. exfalso. apply Hk2.
      rewrite elem_of_app, elem_of_cons. auto.
    - injection Hk as -> Hk. by destruct (IH _ Hk) as [-> ->]. }
  destruct (Z.eqb_spec (Z.of_nat (length l1)) (-1)); [lia|].
  rewrite Hp. pose proof (trace_marked l1 l2 n 0) as T. rewrite Z.add_0_l in T.
  rewrite T. unfold throwError. do 2 f_equal.
  destruct (name sc); simpl; by rewrite ?append_assoc.
Qed.

Lemma lifetimeWalk_found (reg : gmap string Descriptor) (n : string) (sc : ScopeState)
    (l1 l2 : list string) (s : string) (d : Descriptor) (k : nat) :
  path sc = l1 ++ s :: l2 → reg !! s = Some d → lifetime d = Singleton →
  k ≤ length l2 → Forall (shorter reg) (take k l2) →
  lifetimeWalk reg n sc (S (length l1 + k))
  = Some (ResolveError (lifetimeTag (name sc) +:+ "Invalid service lifetime: "
        +:+ arrows l1 +:+ "[" +:+ s +:+ "] -> " +:+ arrows l2 +:+ "[" +:+ n +:+ "]")).
Proof.
  intros Hp Hs Hd. induction k as [|k IH]; intros Hk Hf; simpl.
  - rewrite Hp, Nat.add_0_r, list_lookup_middle by done.
    unfold ServiceRegistry.get. rewrite Hs, Hd.
    pose proof (trace_marked l1 l2 s 0) as T. rewrite Z.add_0_l in T.
    rewrite T. unfold throwError. do 2 f_equal.
    destruct (name sc); simpl; by rewrite ?append_assoc.
  - destruct (lookup_lt_is_Some_2 l2 k) as [m Hm]; [lia|].
    rewrite (take_S_r _ _ _ Hm) in Hf. apply Forall_app in Hf as [Hf Hm'].
    apply Forall_singleton in Hm' as (d' & Hd' & Hl').
    assert ((path sc) !! (length l1 + S k) = Some m) as ->.
    { rewrite Hp, lookup_app_r by lia.
      replace (length l1 + S k - length l1) with (S k) by lia. done. }
    unfold ServiceRegistry.get. rewrite Hd'.
    replace (length l1 + S k) with (S (length l1 + k)) by lia.
    destruct (lifetime d'); [done| |]; apply IH; (lia || done).
Qed.

Lemma lifetimeWalk_pass (reg : gmap string Descriptor) (n : string) (sc : ScopeState) (k : nat) :
  k ≤ length (path sc) → Forall (shorter reg) (take k (path sc)) →
  lifetimeWalk reg n sc k = None.
Proof.
  induction k as [|k IH]; intros Hk Hf; simpl; [done|].
  destruct (lookup_lt_is_Some_2 (path sc) k) as [m Hm]; [lia|].
  rewrite (take_S_r _ _ _ Hm) in Hf. apply Forall_app in Hf as [Hf Hm'].
  apply Forall_singleton in Hm' as (d' & Hd' & Hl').
  rewrite Hm. unfold ServiceRegistry.get. rewrite Hd'.
  destruct (lifetime d'); [done| |]; apply IH; (lia || done).
Qed.

Lemma last_singleton (reg : gmap string Descriptor) (p : list string) :
  Forall (λ m, is_Some (reg !! m)) p →
  Exists (λ m, lifetimeOf reg m = Some Singleton) p →
  ∃ l1 s l2, p = l1 ++ s :: l2 ∧ lifetimeOf reg s = Some Singleton ∧ Forall (shorter reg) l2.
Proof.
  induction p as [|y p IH]; intros Hr He; [by apply Exists_nil in He|].
  apply Forall_cons in Hr as [Hy Hr].
  destruct (decide (Exists (λ m, lifetimeOf reg m = Some Singleton) p)) as [E|E].
  - destruct (IH Hr E) as (l1 & s & l2 & -> & Hs & Hl).
    by exists (y :: l1), s, l2.
  - apply Exists_cons in He as [He|He]; [|done].
    exists [], y, p. split; [done|]. split; [done|].
    apply not_Exists_Forall in E; [|intros ?; apply _].
    apply Forall_forall. intros m Hm.
    rewrite Forall_forall in Hr, E. destruct (Hr m Hm) as [d Hd].
    exists d. split; [done|]. intros Hl. apply (E m Hm).
    unfold lifetimeOf. by rewrite Hd, <- Hl.
Qed.

Lemma lifetime_message (reg : gmap string Descriptor) (n : string) (sc : ScopeState) :
  Forall (λ m, is_Some (reg !! m)) (path sc) →
  Exists (λ m, lifetimeOf reg m = Some Singleton) (path sc) →
  ∃ l1 s l2, path sc = l1 ++ s :: l2 ∧ lifetimeOf reg s = Some Singleton
    ∧ Forall (shorter reg) l2
    ∧ throwErrorIfLifetimeExceeded reg n sc
      = Some (ResolveError (lifetimeTag (name sc) +:+ "Invalid service lifetime: "
          +:+ arrows l1 +:+ "[" +:+ s +:+ "] -> " +:+ arrows l2 +:+ "[" +:+ n +:+ "]")).
Proof.
  intros Hr He. destruct (last_singleton reg _ Hr He) as (l1 & s & l2 & Hp & Hs & Hl).
  exists l1, s, l2. do 3 (split; [done|]).
  unfold lifetimeOf in Hs. destruct (reg !! s) as [d|] eqn:Hd; [|done].
  injection Hs as Hs. unfold throwErrorIfLifetimeExceeded.
  replace (length (path sc)) with (S (length l1 + length l2)).
  - eapply lifetimeWalk_found; try done. by rewrite firstn_all.
  - rewrite Hp, length_app. simpl. lia.
Qed.

(** ** Construction *)

Lemma resolve_constructs (reg : gmap string Descriptor) (context : Context) (n : string)
    (d : Descriptor) (st : state) :
  reg !! n = Some d → missing reg st n (lifetime d) →
  (lifetime d = Scoped → throwErrorIfLifetimeExceeded reg n (scope st) = None) →
  resolve reg n context st = stored (lifetime d) n (invoke context n (create d) st).
Proof.
  intros Hd (Hp & _ & Hc) Hg. unfold resolve, stored.
  apply circular_pass in Hp. rewrite Hp.
  unfold ServiceRegistry.get. rewrite Hd.
  destruct (invoke context n (create d) st) as [r s].
  destruct (lifetime d); simpl.
  - rewrite decide_True by done. by destruct r.
  - rewrite decide_True by done. rewrite Hg by done. by destruct r.
  - by destruct r.
Qed.

(** ** The lifetime guard *)

(** C1, counterexample: the transient [t] is constructed while the singleton
    [s] is on the resolution stack, although the walk over the stack, had it
    been run, would have found [s]; reading [s] on a new context succeeds. *)
Lemma transient_under_singleton_constructed :
  throwErrorIfLifetimeExceeded demo "t" (scope (under ["s"]))
    = Some (ResolveError "/null/ Invalid service lifetime: [s] -> [t]")
  ∧ resolve demo "t" (createContext 1 demo None) (under ["s"])
    = (Normal (VObject 0), mkState (mkProvider ["s"; "t"] 1 ∅) (mkScope LNull ∅ ["s"]))
  ∧ get (createContext 2 demo None) (KString "s") fresh
    = (Normal (VObject 0),
       mkState (mkProvider ["s"; "t"] 1 {["s" := VObject 0]}) (mkScope LNull ∅ [])).
Proof. repeat split; vm_compute; reflexivity. Qed.

(** C1, as amended: a scoped resolution that misses the scope's cache walks
    the resolution stack from the most recent entry backward and, when an
    entry is a singleton, fails with a [ResolveError] whose message, after
    the tag of the scope, shows the path with the most recent singleton
    entry and the requested name in brackets; the state is left as it was.
    Singleton and transient misses are constructed without this walk. *)
Theorem lifetime_walk_guards_scoped_only :
  (∀ (reg : gmap string Descriptor) (context : Context) (n : string) (d : Descriptor)
     (st : state),
     reg !! n = Some d → lifetime d = Scoped →
     n ∉ path (scope st) → Map_get (retainedScoped (scope st)) n = VUndefined →
     Forall (λ m, is_Some (reg !! m)) (path (scope st)) →
     Exists (λ m, lifetimeOf reg m = Some Singleton) (path (scope st)) →
     ∃ l1 s l2 tag, path (scope st) = l1 ++ s :: l2
       ∧ lifetimeOf reg s = Some Singleton
       ∧ Forall (shorter reg) l2
       ∧ resolve reg n context st
         = (Throw (ResolveError (tag +:+ "Invalid service lifetime: "
              +:+ arrows l1 +:+ "[" +:+ s +:+ "] -> " +:+ arrows l2
              +:+ "[" +:+ n +:+ "]")), st))
  ∧ (∀ (reg : gmap string Descriptor) (context : Context) (n : string) (d : Descriptor)
       (st : state),
       reg !! n = Some d → lifetime d ≠ Scoped → missing reg st n (lifetime d) →
       resolve reg n context st = stored (lifetime d) n (invoke context n (create d) st)).
Proof.
  split.
  - intros reg context n d st Hd Hl Hp Hc Hr He.
    destruct (lifetime_message reg n (scope st) Hr He) as (l1 & s & l2 & H1 & H2 & H3 & H4).
    exists l1, s, l2, (lifetimeTag (name (scope st))). do 3 (split; [done|]).
    unfold resolve. apply circular_pass in Hp. rewrite Hp.
    unfold ServiceRegistry.get. rewrite Hd, Hl.
    rewrite decide_True by done. by rewrite H4.
  - intros reg context n d st Hd Hl M. by apply resolve_constructs.
Qed.

Lemma lifetime_walk_guards_scoped_only_witness :
  (∃ l1 s l2 tag, path (scope (under ["y"; "t"])) = l1 ++ s :: l2
     ∧ lifetimeOf demo s = Some Singleton
     ∧ Forall (shorter demo) l2
     ∧ resolve demo "x" (createContext 1 demo None) (under ["y"; "t"])
       = (Throw (ResolveError (tag +:+ "Invalid service lifetime: "
            +:+ arrows l1 +:+ "[" +:+ s +:+ "] -> " +:+ arrows l2
            +:+ "[" +:+ "x" +:+ "]")), under ["y"; "t"]))
  ∧ resolve demo "t" (createContext 1 demo None) (under ["s"])
    = stored Transient "t"
        (invoke (createContext 1 demo None) "t" plain (under ["s"])).
Proof.
  split.
  - apply (proj1 lifetime_walk_guards_scoped_only demo (createContext 1 demo None) "x"
             (mkDescriptor Scoped plain) (under ["y"; "t"])).
    + reflexivity.
    + reflexivity.
    + by_decide.
    + reflexivity.
    + by_decide.
    + by_decide.
  - apply (proj2 lifetime_walk_guards_scoped_only demo (createContext 1 demo None) "t"
             (mkDescriptor Transient plain) (under ["s"])).
    + reflexivity.
    + discriminate.
    + split; [by_decide | split; reflexivity].
Defined.

(** The rejection as the caller of a context sees it: the singleton [y] is
    built from the scoped [x]. *)
Example lifetime_walk_example :
  get (createContext 2 demo None) (KString "y") fresh
  = (Throw (ResolveError "/null/ Invalid service lifetime: [y] -> [x]"),
     mkState (mkProvider ["y"] 0 ∅) (mkScope LNull ∅ [])).
Proof. vm_compute. reflexivity. Qed.

(** ** The circular-reference guard *)

Lemma idle_circular_pass (sc : ScopeState) :
  path sc = [] → ∀ m, throwErrorIfCircularReferenced m sc = None.
Proof. intros H m. apply circular_pass. rewrite H. apply not_elem_of_nil. Qed.

(** C3: a request for a name that is on the resolution stack fails at once
    with a [ResolveError]; the message shows the whole path, with the most
    recent occurrence of the name and the requested name in brackets, and
    the state is untouched.  Whatever a read on a context does, the stack is
    afterwards as it was before: after a read started on an empty stack it is
    empty, and no name is then taken for a circular request. *)
Theorem circular_request_rejected (reg : gmap string Descriptor)
    (exoticContext : option (gmap string Property)) (fuel : nat) (n : string) (st : state) :
  n ∈ path (scope st) →
  (∃ l1 l2, path (scope st) = l1 ++ n :: l2 ∧ (n ∉ l2)
     ∧ resolve reg n (createContext fuel reg exoticContext) st
       = (Throw (ResolveError (resolutionTag (name (scope st))
            +:+ "Invalid service resolution: "
            +:+ arrows l1 +:+ "[" +:+ n +:+ "] -> " +:+ arrows l2
            +:+ "[" +:+ n +:+ "]")), st))
  ∧ (∀ k st0, path (scope st0) = [] →
       path (scope (get (createContext fuel reg exoticContext) k st0).2) = []
       ∧ ∀ m, throwErrorIfCircularReferenced m
                (scope (get (createContext fuel reg exoticContext) k st0).2) = None).
Proof.
  intros Hn. split.
  - destruct (lastIndexOf_split _ _ Hn) as (l1 & l2 & Hp & Hl & _).
    exists l1, l2. do 2 (split; [done|]).
    unfold resolve. by rewrite (circular_message n (scope st) l1 l2 Hp Hl).
  - intros k st0 H0.
    pose proof (ev_path _ _ _ (createContext_framed reg exoticContext fuel k st0)) as Hp.
    rewrite H0 in Hp. split; [done|]. by apply idle_circular_pass.
Qed.

Lemma circular_request_rejected_witness :
  "b" ∈ path (scope (under ["a"; "b"; "c"]))
  ∧ (∃ l1 l2, path (scope (under ["a"; "b"; "c"])) = l1 ++ "b" :: l2 ∧ ("b" ∉ l2)
       ∧ resolve demo "b" (createContext 1 demo None) (under ["a"; "b"; "c"])
         = (Throw (ResolveError (resolutionTag (name (scope (under ["a"; "b"; "c"])))
              +:+ "Invalid service resolution: "
              +:+ arrows l1 +:+ "[" +:+ "b" +:+ "] -> " +:+ arrows l2
              +:+ "[" +:+ "b" +:+ "]")), under ["a"; "b"; "c"]))
  ∧ (∀ k st0, path (scope st0) = [] →
       path (scope (get (createContext 1 demo None) k st0).2) = []
       ∧ ∀ m, throwErrorIfCircularReferenced m
                (scope (get (createContext 1 demo None) k st0).2) = None).
Proof.
  assert (H : "b" ∈ path (scope (under ["a"; "b"; "c"]))) by by_decide.
  split; [exact H|].
  exact (circular_request_rejected demo None 1 "b" (under ["a"; "b"; "c"]) H).
Defined.

(** The message of the specification's example; a self-dependency and a
    cycle of two seen from the caller: the read fails, the stack is empty
    again, and the next read succeeds. *)
Example circular_request_examples :
  resolve demo "b" (createContext 1 demo None) (under ["a"; "b"; "c"])
    = (Throw (ResolveError "/(unnamed)/ Invalid service resolution: a -> [b] -> c -> [b]"),
       under ["a"; "b"; "c"])
  ∧ get (createContext 3 demo None) (KString "z") fresh
    = (Throw (ResolveError "/(unnamed)/ Invalid service resolution: [z] -> [z]"),
       mkState (mkProvider ["z"] 0 ∅) (mkScope LNull ∅ []))
  ∧ get (createContext 3 demo None) (KString "p") fresh
    = (Throw (ResolveError "/(unnamed)/ Invalid service resolution: [p] -> q -> [p]"),
       mkState (mkProvider ["p"; "q"] 0 ∅) (mkScope LNull ∅ []))
  ∧ (get (createContext 3 demo None) (KString "t")
       (get (createContext 3 demo None) (KString "z") fresh).2).1
    = Normal (VObject 0).
Proof. repeat split; vm_compute; reflexivity. Qed.

(** ** The resolution stack around a factory *)

(** C4: when [resolve] reaches construction, its completion is the
    completion of the factory, normal or abrupt: what a factory throws
    reaches the caller as it is.  The name pushed before the factory ran is
    the one popped after it, so the stack is back to what it was; started on
    an empty stack it is empty again, and no later request is taken for a
    circular one. *)
Theorem factory_exit_pops (reg : gmap string Descriptor)
    (exoticContext : option (gmap string Property)) (fuel : nat) (n : string)
    (d : Descriptor) (st : state) (r : completion) (s : state) :
  reg !! n = Some d → missing reg st n (lifetime d) →
  (lifetime d = Scoped → throwErrorIfLifetimeExceeded reg n (scope st) = None) →
  exec (createContext fuel reg exoticContext) (create d) (called n (push n st)) = (r, s) →
  ∃ st', resolve reg n (createContext fuel reg exoticContext) st = (r, st')
    ∧ path (scope s) = path (scope st) ++ [n]
    ∧ path (scope st') = path (scope st)
    ∧ (path (scope st) = [] → ∀ m, throwErrorIfCircularReferenced m (scope st') = None).
Proof.
  intros Hd M Hg He.
  pose proof (exec_evolves reg _ (createContext_framed reg exoticContext fuel)
                (create d) (called n (push n st))) as E.
  rewrite He in E. simpl in E.
  assert (Hs : path (scope s) = path (scope st) ++ [n]) by apply (ev_path _ _ _ E).
  rewrite (resolve_constructs reg _ n d st Hd M Hg).
  unfold invoke. rewrite He. unfold stored. simpl.
  assert (Hpop : path (scope (pop s)) = path (scope st)).
  { simpl. rewrite Hs. apply removelast_last. }
  destruct r as [v| |]; [destruct (lifetime d)|..]; eexists; (split; [reflexivity|]);
    (split; [done|]); simpl; rewrite ?Hs, ?removelast_last;
    (split; [done|]); intros H0 m; apply idle_circular_pass; simpl;
    by rewrite ?Hs, ?removelast_last.
Qed.

Lemma factory_exit_pops_witness :
  ∃ st', resolve demo "f" (createContext 1 demo None) fresh
         = (Throw (UserError (VString "boom")), st')
    ∧ path (scope (called "f" (push "f" fresh))) = path (scope fresh) ++ ["f"]
    ∧ path (scope st') = path (scope fresh)
    ∧ (path (scope fresh) = [] → ∀ m, throwErrorIfCircularReferenced m (scope st') = None).
Proof.
  apply (factory_exit_pops demo None 1 "f"
           (mkDescriptor Singleton (Raise (UserError (VString "boom")))) fresh
           (Throw (UserError (VString "boom"))) (called "f" (push "f" fresh))).
  - reflexivity.
  - split; [by_decide | split; reflexivity].
  - discriminate.
  - reflexivity.
Defined.

(** ** Caches *)

Lemma get_reaches (fuel : nat) (reg : gmap string Descriptor)
    (exoticContext : option (gmap string Property)) (n : string) (st : state) :
  reaches exoticContext n →
  get (createContext (S fuel) reg exoticContext) (KString n) st
  = resolve reg n (createContext fuel reg exoticContext) st.
Proof.
  intros [H1 H2]. simpl. unfold handlerGet. rewrite decide_False by done. by rewrite H2.
Qed.

Lemma resolve_singleton_hit (reg : gmap string Descriptor) (context : Context) (n : string)
    (d : Descriptor) (v : value) (st : state) :
  reg !! n = Some d → lifetime d = Singleton → n ∉ path (scope st) →
  retainedSingleton (provider st) !! n = Some v → v ≠ VUndefined →
  resolve reg n context st = (Normal v, st).
Proof.
  intros Hd Hl Hp Hc Hv. unfold resolve. apply circular_pass in Hp. rewrite Hp.
  unfold ServiceRegistry.get, Map_get. rewrite Hd, Hl, Hc. simpl.
  by rewrite decide_False.
Qed.

Lemma resolve_scoped_hit (reg : gmap string Descriptor) (context : Context) (n : string)
    (d : Descriptor) (v : value) (st : state) :
  reg !! n = Some d → lifetime d = Scoped → n ∉ path (scope st) →
  retainedScoped (scope st) !! n = Some v → v ≠ VUndefined →
  resolve reg n context st = (Normal v, st).
Proof.
  intros Hd Hl Hp Hc Hv. unfold resolve. apply circular_pass in Hp. rewrite Hp.
  unfold ServiceRegistry.get, Map_get. rewrite Hd, Hl, Hc. simpl.
  by rewrite decide_False.
Qed.

(** A cached scoped instance stays in its scope, and its factory at rest as
    long as work goes on in that scope. *)
Lemma scoped_kept (reg : gmap string Descriptor) (n : string) (d : Descriptor)
    (v : value) (st st' : state) :
  reg !! n = Some d → lifetime d = Scoped →
  retainedScoped (scope st) !! n = Some v → v ≠ VUndefined →
  evolves reg st st' →
  retainedScoped (scope st') !! n = Some v ∧ invocations n st' = invocations n st.
Proof.
  intros Hd Hl Hc Hv E.
  assert (H : ∀ l, ¬ missing reg st n l).
  { intros l (_ & Hl' & Hm). unfold lifetimeOf in Hl'. rewrite Hd in Hl'.
    injection Hl' as <-. rewrite Hl in Hm. unfold Map_get in Hm. by rewrite Hc in Hm. }
  split; [by rewrite (ev_scoped _ _ _ E n (H _)) | by apply (ev_calls _ _ _ E)].
Qed.

Lemma perform_idle (fuel : nat) (reg : gmap string Descriptor) (op : Op) (w : World) :
  idle w → idle (perform fuel reg op w).2.
Proof.
  intros Hw. destruct op as [|i x k]; simpl.
  - apply Forall_app. split; [done|]. by apply Forall_singleton.
  - destruct (scopes w !! i) as [sc|] eqn:Hsc; [|done].
    pose proof (createContext_framed reg x fuel k (mkState (shared w) sc)) as E.
    destruct (get _ k _) as [r st]. simpl in *.
    apply Forall_insert; [done|]. rewrite (ev_path _ _ _ E). simpl.
    unfold idle in Hw. rewrite Forall_forall in Hw. apply Hw.
    by eapply list_elem_of_lookup_2.
Qed.

Lemma stored_normal (reg : gmap string Descriptor) (context : Context) (n : string)
    (d : Descriptor) (st st' : state) (v : value) :
  framed reg context →
  stored (lifetime d) n (invoke context n (create d) st) = (Normal v, st') →
  ∃ s, invoke context n (create d) st = (Normal v, s) ∧ invoked reg n st s
    ∧ st' = match lifetime d with
            | Singleton => setSingleton n v s
            | Scoped => setScoped n v s
            | Transient => s
            end.
Proof.
  intros F H. pose proof (invoke_invoked reg context n (create d) st F) as I.
  destruct (invoke context n (create d) st) as [r s]. unfold stored in H. simpl in *.
  destruct r as [v'| |]; [|by destruct (lifetime d)..].
  exists s. destruct (lifetime d); injection H as -> <-; done.
Qed.

(** ** Scoped services *)

Lemma perform_scoped_kept (fuel : nat) (reg : gmap string Descriptor) (n : string)
    (d : Descriptor) (v : value) (i : nat) (op : Op) (w : World) :
  0 < fuel → reg !! n = Some d → lifetime d = Scoped → idle w →
  cachedIn n v i w → v ≠ VUndefined →
  cachedIn n v i (perform fuel reg op w).2
  ∧ (within i op →
       calledTimes n (shared (perform fuel reg op w).2) = calledTimes n (shared w))
  ∧ ∀ x c, op = Access i x (KString n) → reaches x n →
      (perform fuel reg op w).1 = Some c → c = Normal v.
Proof.
  intros Hf Hd Hl Hw (sc & Hsc & Hc) Hv. destruct op as [|j x k]; simpl.
  - split; [|done]. exists sc. split; [|done]. by apply lookup_app_l_Some.
  - destruct (scopes w !! j) as [scj|] eqn:Hj; [|by split; [exists sc|]].
    pose proof (createContext_framed reg x fuel k (mkState (shared w) scj)) as E.
    destruct (decide (j = i)) as [->|Hne].
    + assert (scj = sc) as -> by congruence.
      destruct (scoped_kept reg n d v (mkState (shared w) sc) _ Hd Hl Hc Hv E) as [K1 K2].
      destruct (get _ k _) as [r st] eqn:Hg. simpl in *.
      split; [|split; [done|]].
      * exists (scope st). split; [|done]. simpl. apply list_lookup_insert_eq.
        by eapply lookup_lt_Some.
      * intros y c [= -> ->] Hr [= <-].
        destruct fuel as [|fuel]; [lia|].
        rewrite (get_reaches fuel reg y n _ Hr) in Hg.
        rewrite (resolve_scoped_hit reg _ n d v _ Hd Hl) in Hg; try done.
        -- by injection Hg as <- _.
        -- simpl. unfold idle in Hw. rewrite Forall_forall in Hw.
           rewrite (Hw sc) by (by eapply list_elem_of_lookup_2). apply not_elem_of_nil.
    + destruct (get _ k _) as [r st]. simpl.
      split; [|split; [done|]].
      * exists sc. split; [|done]. simpl. by rewrite list_lookup_insert_ne.
      * by intros y c [= -> _ _].
Qed.

Lemma run_scoped_kept (fuel : nat) (reg : gmap string Descriptor) (n : string)
    (d : Descriptor) (v : value) (i : nat) (ops : list Op) :
  0 < fuel → reg !! n = Some d → lifetime d = Scoped → v ≠ VUndefined →
  ∀ w, idle w → cachedIn n v i w →
  cachedIn n v i (run fuel reg ops w).2
  ∧ Forall (λ e, ∀ x, e.1 = Access i x (KString n) → reaches x n → e.2 = Normal v)
      (run fuel reg ops w).1
  ∧ (Forall (within i) ops →
       calledTimes n (shared (run fuel reg ops w).2) = calledTimes n (shared w)).
Proof.
  intros Hf Hd Hl Hv. induction ops as [|op ops IH]; intros w Hw Hc; simpl; [done|].
  destruct (perform_scoped_kept fuel reg n d v i op w Hf Hd Hl Hw Hc Hv) as (P1 & P2 & P3).
  pose proof (perform_idle fuel reg op w Hw) as Hw'.
  destruct (perform fuel reg op w) as [r w1]. simpl in *.
  destruct (IH w1 Hw' P1) as (R1 & R2 & R3).
  destruct (run fuel reg ops w1) as [log w2]. simpl in *.
  split; [done|]. split.
  - destruct r as [c|]; [|done]. apply Forall_cons. split; [|done].
    simpl. intros x Ho Hr. by apply (P3 x c).
  - intros Ha. apply Forall_cons in Ha as [Ha1 Ha2].
    rewrite (R3 Ha2). by apply P2.
Qed.

(** Two scopes of one provider: the scoped [x] is constructed once in each,
    and read again from each cache. *)
Example scoped_reads :
  run 1 demo [BeginScope; Access 0 None (KString "x"); Access 0 None (KString "x");
              BeginScope; Access 1 None (KString "x"); Access 0 None (KString "x")]
      ServiceProvider.new
  = ([(Access 0 None (KString "x"), Normal (VObject 0));
      (Access 0 None (KString "x"), Normal (VObject 0));
      (Access 1 None (KString "x"), Normal (VObject 1));
      (Access 0 None (KString "x"), Normal (VObject 0))],
     mkWorld (mkProvider ["x"; "x"] 2 ∅)
             [mkScope LNull {["x" := VObject 0]} []; mkScope LNull {["x" := VObject 1]} []]).
Proof. vm_compute. reflexivity. Qed.

(** ** Transient services *)

Lemma transient_read (fuel : nat) (reg : gmap string Descriptor) (n : string)
    (d : Descriptor) (exoticContext : option (gmap string Property)) (st : state) :
  reg !! n = Some d → lifetime d = Transient → reaches exoticContext n →
  n ∉ path (scope st) →
  get (createContext (S fuel) reg exoticContext) (KString n) st
    = invoke (createContext fuel reg exoticContext) n (create d) st
  ∧ invoked reg n st (get (createContext (S fuel) reg exoticContext) (KString n) st).2.
Proof.
  intros Hd Hl Hr Hn. rewrite (get_reaches fuel reg exoticContext n st Hr).
  assert (M : missing reg st n (lifetime d)).
  { split; [done|]. split; [by unfold lifetimeOf; rewrite Hd|]. by rewrite Hl. }
  rewrite (resolve_constructs reg _ n d st Hd M) by (by rewrite Hl).
  rewrite Hl. unfold stored.
  pose proof (invoke_invoked reg (createContext fuel reg exoticContext) n (create d) st
                (createContext_framed _ _ _)) as I.
  destruct (invoke _ n (create d) st) as [[v| |] s]; simpl in *; done.
Qed.

(** Three reads of the transient [t] give three objects; nothing is cached. *)
Example transient_reads :
  run 1 demo (replicate 3 (Access 0 None (KString "t"))) begun
  = ([(Access 0 None (KString "t"), Normal (VObject 0));
      (Access 0 None (KString "t"), Normal (VObject 1));
      (Access 0 None (KString "t"), Normal (VObject 2))],
     mkWorld (mkProvider ["t"; "t"; "t"] 3 ∅) [ServiceProvider.newScope]).
Proof. vm_compute. reflexivity. Qed.

(** ** Exotic contexts *)

(** Through a context whose exotic context has [n], the factory registered
    under [n] is never invoked, whatever is read. *)
Lemma exotic_shields (reg : gmap string Descriptor) (e : gmap string Property)
    (n : string) (fuel : nat) :
  is_Some (e !! n) →
  ∀ k st, invocations n (get (createContext fuel reg (Some e)) k st).2 = invocations n st.
Proof.
  intros He. induction fuel as [|fuel IH]; intros k st; simpl; [done|].
  unfold handlerGet. destruct k as [m|]; [|done]. case_decide; [done|]. simpl.
  assert (X : ∀ c s, invocations n (exec (createContext fuel reg (Some e)) c s).2
                     = invocations n s).
  { apply (exec_preserves (λ a b, invocations n b = invocations n a)); try done.
    intros a b c H1 H2. by rewrite H2. }
  destruct (e !! m) as [[v|getter]|] eqn:Hm; simpl; [done|apply X|].
  assert (Hne : m ≠ n) by (intros ->; rewrite Hm in He; by destruct He).
  assert (Y : ∀ c, invocations n (invoke (createContext fuel reg (Some e)) m c st).2
                   = invocations n st).
  { intros c. unfold invoke.
    pose proof (X c (called m (push m st))) as Hx.
    destruct (exec _ c _) as [r s]. simpl in *.
    rewrite invocations_called, decide_False in Hx by done.
    change (invocations n s = invocations n st).
    change (invocations n (push m st)) with (invocations n st) in Hx. lia. }
  unfold resolve.
  destruct (throwErrorIfCircularReferenced m (scope st)); [done|].
  destruct (ServiceRegistry.get reg m) as [|d]; [done|].
  destruct (lifetime d).
  - case_decide; [|done]. specialize (Y (create d)).
    by destruct (invoke _ m (create d) st) as [[| |] ?].
  - case_decide; [|done].
    destruct (throwErrorIfLifetimeExceeded reg m (scope st)); [done|].
    specialize (Y (create d)). by destruct (invoke _ m (create d) st) as [[| |] ?].
  - apply Y.
Qed.

(** C5, counterexample: the name ["then"] is in the exotic context, and the
    read returns [undefined], not the exotic value. *)
Lemma exotic_then_not_returned :
  ({["then" := Data (VNumber 1)]} : gmap string Property) !! "then" = Some (Data (VNumber 1))
  ∧ get (createContext 1 demo (Some {["then" := Data (VNumber 1)]})) (KString "then") fresh
    = (Normal VUndefined, fresh).
Proof. split; vm_compute; reflexivity. Qed.

(** C5, as amended: for every name other than ["then"] that the exotic
    context has, a read of the name returns what the exotic context gives
    for it, a plain value as it is (the state untouched) and an accessor by
    running its getter; the registry is not consulted, whatever the name is
    registered as, and no read through such a context ever invokes the
    factory registered under the name. *)
Theorem exotic_overrides_registry (fuel : nat) (reg : gmap string Descriptor)
    (e : gmap string Property) (n : string) (p : Property) :
  e !! n = Some p → n ≠ "then" →
  (∀ st, get (createContext (S fuel) reg (Some e)) (KString n) st
         = readProperty (createContext fuel reg (Some e)) p st)
  ∧ (∀ v st, p = Data v →
       get (createContext (S fuel) reg (Some e)) (KString n) st = (Normal v, st))
  ∧ (∀ f k st,
       invocations n (get (createContext f reg (Some e)) k st).2 = invocations n st).
Proof.
  intros He Hn.
  assert (H : ∀ st, get (createContext (S fuel) reg (Some e)) (KString n) st
                    = readProperty (createContext fuel reg (Some e)) p st).
  { intros st. simpl. unfold handlerGet. rewrite decide_False by done. simpl.
    by rewrite He. }
  split; [done|]. split.
  - intros v st ->. by rewrite H.
  - intros f k st. by apply exotic_shields.
Qed.

Lemma exotic_overrides_registry_witness :
  get (createContext 1 demo (Some {["s" := Data (VNumber 7)]})) (KString "s") fresh
  = (Normal (VNumber 7), fresh).
Proof.
  pose proof (exotic_overrides_registry 0 demo {["s" := Data (VNumber 7)]} "s"
                (Data (VNumber 7))) as H.
  destruct H as (_ & H2 & _).
  - vm_compute. reflexivity.
  - by_decide.
  - apply H2. reflexivity.
Defined.

(** ** Property keys *)

(** C8: reading a symbol key on a context throws a [TypeError], not the
    [ResolveError] the handler is about to build: the message is a template
    literal over the key, and a symbol does not convert to a string.  Reading
    ["then"] returns [undefined] and resolves nothing. *)
Theorem symbol_key_throws_TypeError (fuel : nat) (reg : gmap string Descriptor)
    (exoticContext : option (gmap string Property)) (description : string) (st : state) :
  get (createContext (S fuel) reg exoticContext) (KSymbol description) st
    = (Throw TypeError, st)
  ∧ get (createContext (S fuel) reg exoticContext) (KString "then") st
    = (Normal VUndefined, st).
Proof. split; reflexivity. Qed.

(** ** Enumeration *)





(** ** Registration *)

Lemma chain_TypeError (rs : list (Lifetime * string * Target)) (b : gmap string Descriptor)
    (e : error) :
  chain rs b = inl e → e = TypeError.
Proof.
  revert b. induction rs as [|[[l n] t] rs IH]; intros b; simpl; [done|].
  unfold ServiceRegistryBuilder.addWith, ServiceFactory.from.
  destruct t as [pd pw body|v]; simpl.
  - apply IH.
  - destruct (negb _); by intros [= <-].
Qed.

Lemma chain_rejects (before after : list (Lifetime * string * Target)) (l : Lifetime)
    (n : string) (t : Target) (b : gmap string Descriptor) :
  typeof t ≠ "function" → chain (before ++ (l, n, t) :: after) b = inl TypeError.
Proof.
  intros Ht. revert b. induction before as [|[[l' n'] t'] before IH]; intros b; simpl.
  - unfold ServiceRegistryBuilder.addWith, ServiceFactory.from.
    destruct (String.eqb_spec (typeof t) "function"); done.
  - destruct (ServiceRegistryBuilder.addWith l' n' t' b) as [e|b'] eqn:Ha; [|apply IH].
    f_equal. apply (chain_TypeError [(l', n', t')] b). simpl. by rewrite Ha.
Qed.

(** C10: registering a target that is not a function throws a [TypeError]
    from [addSingleton], [addScoped] and [addTransient] alike, and the
    builder is left as it was; a build callback that chains such a
    registration makes the registry constructor, and [createProvider], throw
    that [TypeError]: no registry and no provider come to exist. *)
Theorem non_function_target_rejected (t : Target) (n : string) (b : gmap string Descriptor) :
  typeof t ≠ "function" →
  ServiceRegistryBuilder.addSingleton n t b = inl TypeError
  ∧ ServiceRegistryBuilder.addScoped n t b = inl TypeError
  ∧ ServiceRegistryBuilder.addTransient n t b = inl TypeError
  ∧ ∀ before after l,
      ServiceRegistry.new (chain (before ++ (l, n, t) :: after)) = inl TypeError
      ∧ createProvider (inl (chain (before ++ (l, n, t) :: after))) = inl TypeError.
Proof.
  intros Ht.
  assert (H : ∀ l, ServiceRegistryBuilder.addWith l n t b = inl TypeError).
  { intros l. unfold ServiceRegistryBuilder.addWith, ServiceFactory.from.
    destruct (String.eqb_spec (typeof t) "function"); done. }
  do 3 (split; [apply H|]).
  intros before after l. unfold createProvider, ServiceRegistry.new.
  by rewrite (chain_rejects before after l n t ∅ Ht).
Qed.

Lemma non_function_target_rejected_witness :
  ServiceRegistryBuilder.addSingleton "a" (NotFunction (VNumber 42)) ∅ = inl TypeError
  ∧ createProvider (inl (chain [(Singleton, "b", Function true false (Return VUndefined));
                                (Scoped, "a", NotFunction (VNumber 42))]))
    = inl TypeError.
Proof.
  pose proof (non_function_target_rejected (NotFunction (VNumber 42)) "a" ∅) as H.
  destruct H as (H1 & _ & _ & H4).
  - by_decide.
  - split; [exact H1|].
    exact (proj2 (H4 [(Singleton, "b", Function true false (Return VUndefined))] [] Scoped)).
Defined.

(** ** The nesting bound *)










(** * Further properties *)

(** ** The factory wrapper *)

Lemma exec_bind (context : Context) (c : code) (f : value → code) (st : state) :
  exec context (bind c f) st
  = match exec context c st with
    | (Normal v, st') => exec context (f v) st'
    | abrupt => abrupt
    end.
Proof.
  revert st. induction c as [v|e|k IH|n k IH]; intros st; simpl; [done|done|apply IH|].
  destruct (get context n st) as [[v| |] st']; [apply IH|apply IH|done].
Qed.

Lemma construct_exec (context : Context) (body : code) (st : state) :
  exec context (construct body) st
  = match exec context body (alloc st) with
    | (Normal v, st') =>
        (Normal (match v with VObject _ => v | _ => VObject (allocated (provider st)) end), st')
    | abrupt => abrupt
    end.
Proof.
  unfold construct. cbn [exec]. rewrite exec_bind.
  by destruct (exec context body (alloc st)) as [[v| |] st'].
Qed.

(** X1: when the factory that [from] makes of a class completes normally,
    the constructor has completed normally, and the instance is an object:
    the object that the constructor returns, if it returns one, or else the
    new object, whose identity no earlier object has; and the run has created
    at least that one object. *)
Theorem constructor_yields_object (reg : gmap string Descriptor)
    (x : option (gmap string Property)) (fuel : nat) (body create : code)
    (st st' : state) (v : value) :
  ServiceFactory.from (Function true false body) = inr create →
  exec (createContext fuel reg x) create st = (Normal v, st') →
  isObject v ∧ v ≠ VUndefined
  ∧ allocated (provider st) < allocated (provider st')
  ∧ (∃ u, exec (createContext fuel reg x) body (alloc st) = (Normal u, st'))
  ∧ (∀ u s, exec (createContext fuel reg x) body (alloc st) = (Normal u, s) →
       isObject u → v = u)
  ∧ (∀ u s, exec (createContext fuel reg x) body (alloc st) = (Normal u, s) →
       ¬ isObject u → v = VObject (allocated (provider st))).
Proof.
  intros [= <-] He. rewrite construct_exec in He.
  pose proof (exec_evolves reg _ (createContext_framed reg x fuel) body (alloc st)) as E.
  destruct (exec (createContext fuel reg x) body (alloc st)) as [[u| |] s] eqn:Hb;
    [|done..].
  injection He as <- <-. apply ev_allocated in E. simpl in E.
  split; [destruct u; by eexists|]. split; [by destruct u|]. split; [lia|].
  split; [by exists u|]. split.
  - intros u' s' [= <- <-] [r ->]. done.
  - intros u' s' [= <- <-] Hu. destruct u; try done. destruct Hu. by eexists.
Qed.

Lemma constructor_yields_object_witness :
  isObject (VObject 0) ∧ VObject 0 ≠ VUndefined.
Proof.
  pose proof (constructor_yields_object demo None 1 (Return VUndefined)
                (construct (Return VUndefined)) fresh
                (mkState (mkProvider [] 1 ∅) ServiceProvider.newScope) (VObject 0)) as H.
  destruct H as (H1 & H2 & _).
  - reflexivity.
  - vm_compute. reflexivity.
  - split; [exact H1 | exact H2].
Defined.

(** X2: a singleton registered as a class is cached by every construction
    that completes normally: the instance is an object, it is in the
    provider's cache afterwards, and the next resolution of the name returns
    it without running anything. *)
Theorem class_singleton_always_cached (reg : gmap string Descriptor)
    (x : option (gmap string Property)) (fuel : nat) (n : string) (body made : code)
    (st st' : state) (v : value) :
  ServiceFactory.from (Function true false body) = inr made →
  reg !! n = Some (mkDescriptor Singleton made) →
  n ∉ path (scope st) → Map_get (retainedSingleton (provider st)) n = VUndefined →
  resolve reg n (createContext fuel reg x) st = (Normal v, st') →
  isObject v
  ∧ retainedSingleton (provider st') !! n = Some v
  ∧ ∀ context, resolve reg n context st' = (Normal v, st').
Proof.
  intros Hf Hd Hn Hm Hr.
  assert (M : missing reg st n Singleton).
  { split; [done|]. split; [by unfold lifetimeOf; rewrite Hd|done]. }
  rewrite (resolve_constructs reg _ n _ st Hd M) in Hr by done.
  apply (stored_normal reg) in Hr as (s & Hi & I & ->); [|apply createContext_framed].
  pose proof (in_path _ _ _ _ I) as Hp.
  cbn [lifetime create] in *. unfold invoke in Hi.
  destruct (exec _ made _) as [r s0] eqn:He. injection Hi as -> <-.
  injection Hf as <-. rewrite construct_exec in He.
  destruct (exec _ body _) as [[u| |] s1]; [|done..]. injection He as Hv _.
  assert (Ho : isObject v) by (rewrite <- Hv; destruct u; by eexists).
  split; [done|]. split; [apply lookup_insert_eq|].
  intros context. apply (resolve_singleton_hit reg context n _ v _ Hd); [done| | |].
  - simpl in *. by rewrite Hp.
  - apply lookup_insert_eq.
  - destruct Ho as [r ->]. done.
Qed.

Lemma class_singleton_always_cached_witness :
  isObject (VObject 0)
  ∧ retainedSingleton
      (provider (resolve mixed "a" (createContext 1 mixed None) fresh).2) !! "a"
    = Some (VObject 0).
Proof.
  pose proof (class_singleton_always_cached mixed None 1 "a" (Return VUndefined)
                (construct (Return VUndefined)) fresh
                (resolve mixed "a" (createContext 1 mixed None) fresh).2 (VObject 0)) as H.
  destruct H as (H1 & H2 & _).
  - reflexivity.
  - vm_compute. reflexivity.
  - by_decide.
  - reflexivity.
  - vm_compute. reflexivity.
  - split; [exact H1 | exact H2].
Defined.

(** ** Registration and the registry *)

(** X3: a registration that succeeds can be looked up: [get] gives the
    descriptor with the lifetime of the method used and the factory made by
    [from], [has] says yes, and every other name is as before.  A second
    registration under the same name replaces the first. *)
Theorem registration_round_trip (l : Lifetime) (n : string) (t : Target)
    (b b' : gmap string Descriptor) :
  ServiceRegistryBuilder.addWith l n t b = inr b' →
  (∃ made, ServiceFactory.from t = inr made
     ∧ ServiceRegistry.get b' n = inr (mkDescriptor l made))
  ∧ ServiceRegistry.has b' n = true
  ∧ (∀ m, m ≠ n → ServiceRegistry.get b' m = ServiceRegistry.get b m
                  ∧ ServiceRegistry.has b' m = ServiceRegistry.has b m)
  ∧ (∀ l0 t0 b0, ServiceRegistryBuilder.addWith l0 n t0 b0 = inr b →
       ∀ m, ServiceRegistry.get b' m
            = match ServiceRegistryBuilder.addWith l n t b0 with
              | inr b1 => ServiceRegistry.get b1 m
              | inl e => inl e
              end).
Proof.
  unfold ServiceRegistryBuilder.addWith, ServiceRegistryBuilder.add.
  destruct (ServiceFactory.from t) as [e|made] eqn:Hf; [done|]. intros [= <-].
  split; [|split; [|split]].
  - exists made. split; [done|]. unfold ServiceRegistry.get. by rewrite lookup_insert_eq.
  - unfold ServiceRegistry.has. apply bool_decide_eq_true. by rewrite lookup_insert_eq.
  - intros m Hm. unfold ServiceRegistry.get, ServiceRegistry.has.
    by rewrite lookup_insert_ne.
  - intros l0 t0 b0. destruct (ServiceFactory.from t0); [done|]. intros [= <-] m.
    by rewrite insert_insert_eq.
Qed.

Lemma registration_round_trip_witness :
  ServiceRegistry.has (<["a" := mkDescriptor Scoped (construct (Return VUndefined))]> ∅) "a"
  = true.
Proof.
  apply (registration_round_trip Scoped "a" classA ∅
           (<["a" := mkDescriptor Scoped (construct (Return VUndefined))]> ∅)).
  reflexivity.
Defined.

(** X4: [get] succeeds on exactly the names that [has] accepts and that
    [names] lists; on any other name it throws the [ResolveError]
    ["Invalid service name: "] followed by the name. *)
Theorem registry_get_has_names (reg : gmap string Descriptor) (n : string) :
  (ServiceRegistry.has reg n = true ↔ ∃ d, ServiceRegistry.get reg n = inr d)
  ∧ (ServiceRegistry.has reg n = true ↔ n ∈ ServiceRegistry.names reg)
  ∧ (ServiceRegistry.has reg n = false ↔
       ServiceRegistry.get reg n = inl (ResolveError ("Invalid service name: " +:+ n)))
  ∧ (∀ e, ServiceRegistry.get reg n = inl e →
       e = ResolveError ("Invalid service name: " +:+ n)).
Proof.
  unfold ServiceRegistry.has, ServiceRegistry.get, ServiceRegistry.names, throwError.
  rewrite bool_decide_eq_true, bool_decide_eq_false.
  split; [|split; [|split]].
  - destruct (reg !! n) as [d|].
    + split; intros _; by exists d.
    + split; intros [? ?]; done.
  - rewrite list_elem_of_fmap. split.
    + intros [d Hd]. exists (n, d). split; [done|]. by apply elem_of_map_to_list.
    + intros [[m d] [-> Hd]]. apply elem_of_map_to_list in Hd. by eexists.
  - destruct (reg !! n) as [d|].
    + split; [|done]. intros H. destruct H. by exists d.
    + split; [done|]. intros _ [? ?]. done.
  - destruct (reg !! n); [done|]. by intros e [= <-].
Qed.

Lemma chain_app (r1 r2 : list (Lifetime * string * Target)) (b : gmap string Descriptor) :
  chain (r1 ++ r2) b
  = match chain r1 b with
    | inl e => inl e
    | inr b1 => chain r2 b1
    end.
Proof.
  revert b. induction r1 as [|[[l n] t] r1 IH]; intros b; simpl; [done|].
  destruct (ServiceRegistryBuilder.addWith l n t b); [done|apply IH].
Qed.

Lemma chain_untouched (rs : list (Lifetime * string * Target)) (b reg : gmap string Descriptor)
    (n : string) :
  chain rs b = inr reg → n ∉ registeredNames rs → reg !! n = b !! n.
Proof.
  revert b. induction rs as [|[[l m] t] rs IH]; intros b; simpl; [by intros [= <-]|].
  unfold ServiceRegistryBuilder.addWith, ServiceRegistryBuilder.add.
  destruct (ServiceFactory.from t) as [|made]; [done|].
  intros H Hn. apply not_elem_of_cons in Hn as [Hne Hn]. simpl in Hne.
  rewrite (IH _ H Hn). by rewrite lookup_insert_ne.
Qed.

Lemma chain_succeeds (rs : list (Lifetime * string * Target)) (b : gmap string Descriptor) :
  Forall (λ r, typeof r.2 = "function") rs ↔ ∃ reg, chain rs b = inr reg.
Proof.
  revert b. induction rs as [|[[l n] t] rs IH]; intros b; simpl.
  { split; [by eexists | constructor]. }
  rewrite Forall_cons. simpl.
  unfold ServiceRegistryBuilder.addWith, ServiceFactory.from.
  destruct t as [pd pw body|v]; simpl.
  - split; [intros [_ H]; by apply IH | intros H; split; [done|]; by eapply IH].
  - split; [by intros [? _]; destruct v | by intros [? ?]; destruct (negb _)].
Qed.

Lemma registry_get_has_names_witness :
  ServiceRegistry.get mixed "d" = inl (ResolveError ("Invalid service name: " +:+ "d"))
  ∧ "a" ∈ ServiceRegistry.names mixed.
Proof.
  split.
  - apply (proj1 (proj1 (proj2 (proj2 (registry_get_has_names mixed "d"))))).
    vm_compute. reflexivity.
  - apply (proj1 (proj1 (proj2 (registry_get_has_names mixed "a")))).
    vm_compute. reflexivity.
Defined.

(** X5: a build callback that chains registrations succeeds exactly when
    every target is a function; the registry then holds, for each name, the
    descriptor of the last registration made under it and nothing under any
    other name, and [createProvider] returns it with a new provider whose
    singleton cache is empty. *)
Theorem chain_registers_all (rs : list (Lifetime * string * Target)) :
  (Forall (λ r, typeof r.2 = "function") rs ↔ ∃ reg, chain rs ∅ = inr reg)
  ∧ ∀ reg, chain rs ∅ = inr reg →
      createProvider (inl (chain rs)) = inr (reg, ServiceProvider.new)
      ∧ retainedSingleton (shared ServiceProvider.new) = ∅
      ∧ (∀ n, n ∉ registeredNames rs → reg !! n = None)
      ∧ (∀ before l n t after,
           rs = before ++ (l, n, t) :: after → n ∉ registeredNames after →
           ∃ made, ServiceFactory.from t = inr made
                   ∧ reg !! n = Some (mkDescriptor l made)).
Proof.
  split; [apply chain_succeeds|]. intros reg Hc.
  split; [unfold createProvider, ServiceRegistry.new; by rewrite Hc|].
  split; [done|]. split.
  - intros n Hn. by rewrite (chain_untouched rs ∅ reg n Hc Hn).
  - intros before l n t after -> Hn. rewrite chain_app in Hc.
    destruct (chain before ∅) as [|b1]; [done|]. simpl in Hc.
    unfold ServiceRegistryBuilder.addWith, ServiceRegistryBuilder.add in Hc.
    destruct (ServiceFactory.from t) as [|made]; [done|].
    exists made. split; [done|].
    rewrite (chain_untouched after _ reg n Hc Hn). apply lookup_insert_eq.
Qed.

Lemma chain_registers_all_witness :
  createProvider (inl (chain mixedRegistrations)) = inr (mixed, ServiceProvider.new)
  ∧ mixed !! "z" = None.
Proof.
  pose proof (proj2 (chain_registers_all mixedRegistrations) mixed) as H.
  destruct H as (H1 & _ & H3 & _).
  - vm_compute. reflexivity.
  - split; [exact H1 | apply H3; by_decide].
Defined.

(** The registry of the test suite: the three names with their lifetimes. *)
Example mixed_lifetimes :
  lifetimeOf mixed "a" = Some Singleton
  ∧ lifetimeOf mixed "b" = Some Scoped
  ∧ lifetimeOf mixed "c" = Some Transient.
Proof. repeat split; vm_compute; reflexivity. Qed.

(** ** Failures of a resolution *)

(** X6: a read of a name that is not registered, that is not answered before
    [resolve] and is not on the resolution stack, throws the [ResolveError]
    ["Invalid service name: "] followed by the name; nothing is pushed,
    invoked or stored. *)
Theorem unregistered_name_rejected (reg : gmap string Descriptor)
    (x : option (gmap string Property)) (fuel : nat) (n : string) (st : state) :
  reg !! n = None → reaches x n → n ∉ path (scope st) →
  get (createContext (S fuel) reg x) (KString n) st
  = (Throw (ResolveError ("Invalid service name: " +:+ n)), st).
Proof.
  intros Hd Hr Hn. rewrite (get_reaches fuel reg x n st Hr). unfold resolve.
  apply circular_pass in Hn. rewrite Hn. unfold ServiceRegistry.get. by rewrite Hd.
Qed.

Lemma unregistered_name_rejected_witness :
  get (createContext 1 mixed None) (KString "d") fresh
  = (Throw (ResolveError ("Invalid service name: " +:+ "d")), fresh).
Proof.
  apply (unregistered_name_rejected mixed None 0 "d" fresh).
  - vm_compute. reflexivity.
  - split; [by_decide | reflexivity].
  - by_decide.
Defined.

(** ** What the caches and the log can hold *)

Lemma perform_tidy (fuel : nat) (reg : gmap string Descriptor) (op : Op) (w : World) :
  tidy reg w → tidy reg (perform fuel reg op w).2.
Proof.
  intros [Hs Hc]. destruct op as [|i x k]; cbn [perform].
  - split; [done|]. cbn. apply Forall_app. split; [done|].
    apply Forall_singleton. intros n [v Hv]. cbn in Hv. by rewrite lookup_empty in Hv.
  - destruct (scopes w !! i) as [sc|] eqn:Hsc; [|done].
    pose proof (createContext_framed reg x fuel k (mkState (shared w) sc)) as E.
    destruct (get _ k _) as [r st]. cbn [fst snd] in *. split; cbn [shared scopes].
    + intros n Hn.
      destruct (decide (lifetimeOf reg n = Some Singleton)) as [|Hl]; [done|].
      apply Hs. pose proof (ev_singleton _ _ _ E n) as Hx. cbn [provider] in Hx.
      rewrite <- Hx; [done|]. by intros (_ & ? & _).
    + apply Forall_insert; [done|]. intros n Hn.
      destruct (decide (lifetimeOf reg n = Some Scoped)) as [|Hl]; [done|].
      rewrite Forall_forall in Hc. apply (Hc sc); [by eapply list_elem_of_lookup_2|].
      pose proof (ev_scoped _ _ _ E n) as Hx. cbn [scope] in Hx.
      rewrite <- Hx; [done|]. by intros (_ & ? & _).
Qed.

(** X8: no cache ever holds a name of another lifetime, or a name that is
    not registered: if the singleton cache holds only singleton names and
    every scoped cache only scoped names, as with a new provider, then so it
    is after any scopes begun and any reads made. *)
Theorem caches_hold_their_lifetime (fuel : nat) (reg : gmap string Descriptor)
    (ops : list Op) (w : World) :
  tidy reg w → tidy reg (run fuel reg ops w).2.
Proof.
  revert w. induction ops as [|op ops IH]; intros w Hw; [done|]. cbn [run].
  pose proof (perform_tidy fuel reg op w Hw) as H1.
  destruct (perform fuel reg op w) as [r w1]. specialize (IH w1 H1).
  by destruct (run fuel reg ops w1) as [log w2].
Qed.

Lemma caches_hold_their_lifetime_witness :
  tidy mixed
    (run 3 mixed [BeginScope; Access 0 None (KString "c"); BeginScope;
                  Access 1 None (KString "c")] ServiceProvider.new).2.
Proof.
  apply (caches_hold_their_lifetime 3 mixed _ ServiceProvider.new).
  split; [|constructor]. intros n [v Hv]. cbn in Hv. by rewrite lookup_empty in Hv.
Defined.

Lemma calledTimes_zero (n : string) (p : ProviderState) :
  calledTimes n p = 0 → n ∉ calls p.
Proof.
  unfold calledTimes. intros H Hn.
  assert (Hf : n ∈ filter (λ x, x = n) (calls p)) by (by apply list_elem_of_filter).
  destruct (filter _ (calls p)); [by apply elem_of_nil in Hf | done].
Qed.

Lemma run_unregistered (fuel : nat) (reg : gmap string Descriptor) (n : string)
    (ops : list Op) (w : World) :
  reg !! n = None →
  calledTimes n (shared (run fuel reg ops w).2) = calledTimes n (shared w).
Proof.
  intros Hd. revert w. induction ops as [|op ops IH]; intros w; [done|]. cbn [run].
  assert (H1 : calledTimes n (shared (perform fuel reg op w).2) = calledTimes n (shared w)).
  { destruct op as [|i x k]; cbn [perform]; [done|].
    destruct (scopes w !! i) as [sc|]; [|done].
    pose proof (createContext_framed reg x fuel k (mkState (shared w) sc)) as E.
    destruct (get _ k _) as [r st]. cbn [fst snd shared] in *.
    apply (ev_calls _ _ _ E n). intros l (_ & Hl & _).
    unfold lifetimeOf in Hl. by rewrite Hd in Hl. }
  destruct (perform fuel reg op w) as [r w1]. specialize (IH w1).
  destruct (run fuel reg ops w1) as [log w2]. cbn [fst snd] in *. congruence.
Qed.

(** X9: the container invokes registered factories only: whatever is read,
    on whatever scopes, the log of invocations gains nothing under a name
    that is not registered, and after any run on a new provider every name
    in the log is registered. *)
Theorem only_registered_factories_invoked (fuel : nat) (reg : gmap string Descriptor)
    (ops : list Op) :
  (∀ n w, reg !! n = None →
     calledTimes n (shared (run fuel reg ops w).2) = calledTimes n (shared w))
  ∧ Forall (λ n, is_Some (reg !! n))
      (calls (shared (run fuel reg ops ServiceProvider.new).2)).
Proof.
  split; [intros n w; apply run_unregistered|].
  apply Forall_forall. intros n Hn.
  destruct (reg !! n) as [d|] eqn:Hd; [by eexists|]. exfalso.
  apply (calledTimes_zero n (shared (run fuel reg ops ServiceProvider.new).2)); [|done].
  by rewrite (run_unregistered fuel reg n ops ServiceProvider.new Hd).
Qed.

Lemma only_registered_factories_invoked_witness :
  calledTimes "d"
    (shared (run 3 mixed [Access 0 None (KString "d"); Access 0 None (KString "c")]
               begun).2)
  = calledTimes "d" (shared begun).
Proof.
  apply (proj1 (only_registered_factories_invoked 3 mixed
                  [Access 0 None (KString "d"); Access 0 None (KString "c")]) "d" begun).
  vm_compute. reflexivity.
Defined.

Lemma perform_elsewhere (fuel : nat) (reg : gmap string Descriptor) (i : nat)
    (sc : ScopeState) (op : Op) (w : World) :
  scopes w !! i = Some sc → elsewhere i op →
  scopes (perform fuel reg op w).2 !! i = Some sc.
Proof.
  intros Hsc He. destruct op as [|j x k]; cbn [perform].
  - cbn. by apply lookup_app_l_Some.
  - destruct (scopes w !! j); [|done]. destruct (get _ k _) as [r st].
    cbn [snd scopes]. by rewrite list_lookup_insert_ne.
Qed.

(** ** The two guards *)

(** X11: the circular-reference guard rejects exactly the names that are on
    the resolution stack, and what it throws is a [ResolveError]: a name
    that is not under construction is never taken for a circular request. *)
Theorem circular_guard_exact (n : string) (sc : ScopeState) :
  (throwErrorIfCircularReferenced n sc = None ↔ n ∉ path sc)
  ∧ (n ∈ path sc ↔ ∃ message, throwErrorIfCircularReferenced n sc
                              = Some (ResolveError message)).
Proof.
  split; [apply circular_pass|]. split.
  - intros Hn. destruct (lastIndexOf_split _ _ Hn) as (l1 & l2 & Hp & Hl & _).
    eexists. apply (circular_message n sc l1 l2 Hp Hl).
  - intros [message H]. destruct (decide (n ∈ path sc)) as [|Hn]; [done|].
    apply circular_pass in Hn. congruence.
Qed.

Lemma circular_guard_exact_witness :
  throwErrorIfCircularReferenced "a" (scope (under ["c"; "b"])) = None.
Proof.
  apply (proj2 (proj1 (circular_guard_exact "a" (scope (under ["c"; "b"]))))).
  by_decide.
Defined.

(** X12: on a stack of registered names the lifetime guard lets a scoped
    construction pass exactly when no entry of the stack is a singleton, in
    particular on the empty stack of a read made by the caller; what it
    throws is a [ResolveError]. *)
Theorem lifetime_guard_exact (reg : gmap string Descriptor) (n : string) (sc : ScopeState) :
  Forall (λ m, is_Some (reg !! m)) (path sc) →
  (throwErrorIfLifetimeExceeded reg n sc = None
   ↔ Forall (λ m, lifetimeOf reg m ≠ Some Singleton) (path sc))
  ∧ (path sc = [] → throwErrorIfLifetimeExceeded reg n sc = None)
  ∧ (∀ e, throwErrorIfLifetimeExceeded reg n sc = Some e → ∃ message, e = ResolveError message).
Proof.
  intros Hr.
  assert (P : Forall (λ m, lifetimeOf reg m ≠ Some Singleton) (path sc) →
              throwErrorIfLifetimeExceeded reg n sc = None).
  { intros Hf. apply lifetimeWalk_pass; [done|]. rewrite firstn_all.
    rewrite Forall_forall in Hr, Hf. apply Forall_forall. intros m Hm.
    destruct (Hr m Hm) as [d Hd]. exists d. split; [done|]. intros Hl.
    apply (Hf m Hm). unfold lifetimeOf. rewrite Hd. simpl. by rewrite Hl. }
  assert (Q : Exists (λ m, lifetimeOf reg m = Some Singleton) (path sc) →
              ∃ message, throwErrorIfLifetimeExceeded reg n sc = Some (ResolveError message)).
  { intros He. destruct (lifetime_message reg n sc Hr He) as (l1 & s & l2 & _ & _ & _ & H).
    by eexists. }
  split; [|split].
  - split; [|done]. intros H. apply Forall_forall. intros m Hm Hl.
    destruct Q as [message Hq]; [|congruence].
    apply Exists_exists. by exists m.
  - intros Hp. apply P. rewrite Hp. constructor.
  - intros e He.
    destruct (decide (Exists (λ m, lifetimeOf reg m = Some Singleton) (path sc))) as [Hx|Hx].
    + destruct (Q Hx) as [message Hq]. exists message. congruence.
    + rewrite P in He; [done|]. apply not_Exists_Forall in Hx; [|intros ?; apply _].
      eapply Forall_impl; [exact Hx|]. simpl. intros m Hm. exact Hm.
Qed.

Lemma lifetime_guard_exact_witness :
  throwErrorIfLifetimeExceeded mixed "b" (scope (under ["c"])) = None.
Proof.
  pose proof (lifetime_guard_exact mixed "b" (scope (under ["c"]))) as H.
  destruct H as (H1 & _ & _).
  - by_decide.
  - apply H1. by_decide.
Defined.

(** X13: the lifetime guard runs on a miss only.  A scoped instance that is
    already in the scope's cache is handed to whoever asks, also to a
    singleton under construction for which the guard would have thrown: the
    resolution returns the instance and leaves the state as it was. *)
Theorem cached_scoped_skips_lifetime_guard (reg : gmap string Descriptor)
    (context : Context) (n : string) (d : Descriptor) (v : value) (st : state) :
  reg !! n = Some d → lifetime d = Scoped → n ∉ path (scope st) →
  retainedScoped (scope st) !! n = Some v → v ≠ VUndefined →
  Forall (λ m, is_Some (reg !! m)) (path (scope st)) →
  Exists (λ m, lifetimeOf reg m = Some Singleton) (path (scope st)) →
  (∃ message, throwErrorIfLifetimeExceeded reg n (scope st) = Some (ResolveError message))
  ∧ resolve reg n context st = (Normal v, st).
Proof.
  intros Hd Hl Hn Hc Hv Hr He. split.
  - destruct (lifetime_message reg n (scope st) Hr He) as (l1 & s & l2 & _ & _ & _ & H).
    by eexists.
  - by apply (resolve_scoped_hit reg context n d).
Qed.

Lemma cached_scoped_skips_lifetime_guard_witness :
  resolve demo "x" (createContext 1 demo None)
    (mkState (mkProvider ["x"; "y"] 1 ∅) (mkScope LNull {["x" := VObject 0]} ["y"]))
  = (Normal (VObject 0),
     mkState (mkProvider ["x"; "y"] 1 ∅) (mkScope LNull {["x" := VObject 0]} ["y"])).
Proof.
  apply (cached_scoped_skips_lifetime_guard demo (createContext 1 demo None) "x"
           (mkDescriptor Scoped plain) (VObject 0)
           (mkState (mkProvider ["x"; "y"] 1 ∅) (mkScope LNull {["x" := VObject 0]} ["y"]))).
  - reflexivity.
  - reflexivity.
  - by_decide.
  - vm_compute. reflexivity.
  - discriminate.
  - by_decide.
  - by_decide.
Defined.

(** The same from the caller's side: once the scoped [x] has been read, the
    singleton [y] built from it is constructed and kept by the provider. *)
Example cached_scoped_captured :
  (run 2 demo [Access 0 None (KString "x"); Access 0 None (KString "y");
               BeginScope; Access 1 None (KString "y")] begun).1
  = [(Access 0 None (KString "x"), Normal (VObject 0));
     (Access 0 None (KString "y"), Normal (VObject 0));
     (Access 1 None (KString "y"), Normal (VObject 0))].
Proof. vm_compute. reflexivity. Qed.

(** ** Depth of a resolution *)



(** ** The stacks at rest *)

(** X15: when no resolution is in progress in any scope, none is in
    progress after any scopes begun and any reads made, however the reads
    completed: every resolution stack is empty again, and the next read in
    any scope starts on an empty stack. *)
Theorem stacks_empty_at_rest (fuel : nat) (reg : gmap string Descriptor)
    (ops : list Op) (w : World) :
  idle w → idle (run fuel reg ops w).2.
Proof.
  revert w. induction ops as [|op ops IH]; intros w Hw; [done|]. cbn [run].
  pose proof (perform_idle fuel reg op w Hw) as H1.
  destruct (perform fuel reg op w) as [r w1]. specialize (IH w1 H1).
  by destruct (run fuel reg ops w1) as [log w2].
Qed.

Lemma stacks_empty_at_rest_witness :
  idle (run 3 demo [BeginScope; Access 0 None (KString "z"); Access 0 None (KString "f");
                    Access 0 None (KString "y")] ServiceProvider.new).2.
Proof.
  apply (stacks_empty_at_rest 3 demo _ ServiceProvider.new). constructor.
Defined.

(** ** The scenario of the test suite *)

(** The mixed registry, leaf first: [c] constructs [a], [b] and [c] once
    each; [b] and [a] are then read from the caches; in a second scope [a]
    is still the provider's, [b] and [c] are constructed again. *)
Example mixed_scenario :
  calls (shared (run 3 mixed [BeginScope; Access 0 None (KString "c");
                              Access 0 None (KString "b"); Access 0 None (KString "a")]
                   ServiceProvider.new).2)
  = ["c"; "a"; "b"]
  ∧ calls (shared (run 3 mixed [BeginScope; Access 0 None (KString "c");
                                Access 0 None (KString "b"); Access 0 None (KString "a");
                                BeginScope; Access 1 None (KString "c");
                                Access 1 None (KString "b"); Access 1 None (KString "a")]
                     ServiceProvider.new).2)
  = ["c"; "a"; "b"; "c"; "b"].
Proof. split; vm_compute; reflexivity. Qed.

(** * Factories that leave their scope *)

(** ** Steps of a scope *)

Lemma calledTimes_snoc (m n : string) (c : list string) (a : nat) (r : gmap string value) :
  calledTimes m (mkProvider (c ++ [n]) a r)
  = calledTimes m (mkProvider c a r) + (if decide (n = m) then 1 else 0).
Proof.
  unfold calledTimes. simpl. rewrite filter_app, length_app. f_equal.
  rewrite filter_cons, filter_nil. by case_decide.
Qed.

Lemma onScope_push (i : nat) (n : string) (w : World) (sc : ScopeState) :
  scopes w !! i = Some sc →
  Across.onScope i (push n) w
  = mkWorld (shared w)
      (<[i := mkScope (name sc) (retainedScoped sc) (path sc ++ [n])]> (scopes w)).
Proof. intros H. unfold Across.onScope. by rewrite H. Qed.

Lemma onScope_pop (i : nat) (w : World) (sc : ScopeState) :
  scopes w !! i = Some sc →
  Across.onScope i pop w
  = mkWorld (shared w)
      (<[i := mkScope (name sc) (retainedScoped sc) (removelast (path sc))]> (scopes w)).
Proof. intros H. unfold Across.onScope. by rewrite H. Qed.

Lemma onScope_setScoped (i : nat) (n : string) (v : value) (w : World) (sc : ScopeState) :
  scopes w !! i = Some sc →
  Across.onScope i (setScoped n v) w
  = mkWorld (shared w)
      (<[i := mkScope (name sc) (<[n := v]> (retainedScoped sc)) (path sc)]> (scopes w)).
Proof. intros H. unfold Across.onScope. by rewrite H. Qed.

Lemma onScope_called (i : nat) (n : string) (w : World) (sc : ScopeState) :
  scopes w !! i = Some sc →
  Across.onScope i (called n) w
  = mkWorld (mkProvider (calls (shared w) ++ [n]) (allocated (shared w))
                        (retainedSingleton (shared w)))
            (scopes w).
Proof.
  intros H. unfold Across.onScope, Across.unfocus. rewrite H. simpl.
  by rewrite list_insert_id.
Qed.

Lemma onScope_setSingleton (i : nat) (n : string) (v : value) (w : World) (sc : ScopeState) :
  scopes w !! i = Some sc →
  Across.onScope i (setSingleton n v) w
  = mkWorld (mkProvider (calls (shared w)) (allocated (shared w))
                        (<[n := v]> (retainedSingleton (shared w))))
            (scopes w).
Proof.
  intros H. unfold Across.onScope, Across.unfocus. rewrite H. simpl.
  by rewrite list_insert_id.
Qed.

(** The provider as the factory of [n] finds it when the scope numbered [i]
    invokes it. *)
Lemma entered (i : nat) (n : string) (w : World) (sc : ScopeState) :
  scopes w !! i = Some sc →
  Across.onScope i (called n) (Across.onScope i (push n) w)
  = mkWorld (mkProvider (calls (shared w) ++ [n]) (allocated (shared w))
                        (retainedSingleton (shared w)))
            (<[i := mkScope (name sc) (retainedScoped sc) (path sc ++ [n])]> (scopes w)).
Proof.
  intros H. rewrite (onScope_push i n w sc H).
  erewrite onScope_called; [done|]. simpl. apply list_lookup_insert_eq.
  by eapply lookup_lt_Some.
Qed.

(** ** The frame of the provider *)

(** What holds of every step holds of a whole run of factory code. *)
Lemma exec_preserves_across (R : World → World → Prop)
    (context : Across.Context) (contextOf : nat → Across.Context) :
  (∀ w, R w w) → (∀ a b c, R a b → R b c → R a c) →
  (∀ w, R w (Across.allocate w)) →
  (∀ w, R w (ServiceProvider.beginScope w).2) →
  (∀ k w, R w (context k w).2) →
  (∀ j k w, R w (contextOf j k w).2) →
  ∀ c w, R w (Across.exec context contextOf c w).2.
Proof.
  intros Hrefl Htrans Halloc Hbegin Hown Hother.
  induction c as [v|e|k IH|n k IH|j n k IH|k IH]; intros w; simpl.
  - apply Hrefl.
  - apply Hrefl.
  - eapply Htrans; [apply Halloc | apply IH].
  - pose proof (Hown n w) as Hg. destruct (context n w) as [r w'].
    destruct r as [v|e|]; simpl in *; [| |done]; (eapply Htrans; [exact Hg | apply IH]).
  - pose proof (Hother j n w) as Hg. destruct (contextOf j n w) as [r w'].
    destruct r as [v|e|]; simpl in *; [| |done]; (eapply Htrans; [exact Hg | apply IH]).
  - eapply Htrans; [apply Hbegin | apply IH].
Qed.

Section Grows.

Context (reg : gmap string Across.Descriptor).

Lemma grows_refl (w : World) : grows reg w w.
Proof.
  split; try done.
  - intros j sc H. by exists sc.
  - intros j sc' H1 H2. congruence.
Qed.

Lemma settledScoped_kept (sc sc' : ScopeState) (n : string) :
  path sc' = path sc →
  (∀ m, settledScoped reg sc m → retainedScoped sc' !! m = retainedScoped sc !! m) →
  settledScoped reg sc n → settledScoped reg sc' n.
Proof.
  intros Hp Hc H. pose proof (Hc n H) as E. destruct H as [H|[H|H]].
  - by left.
  - right. left. unfold Map_get in *. by rewrite E.
  - right. right. by rewrite Hp.
Qed.

Lemma grows_trans (a b c : World) : grows reg a b → grows reg b c → grows reg a c.
Proof.
  intros E1 E2. split.
  - intros j sc H. destruct (gr_scope _ _ _ E1 j sc H) as (sc1 & H1 & P1 & N1 & C1).
    destruct (gr_scope _ _ _ E2 j sc1 H1) as (sc2 & H2 & P2 & N2 & C2).
    exists sc2. split; [done|]. split; [congruence|]. split; [congruence|].
    intros n Hn. rewrite C2, C1; [done|done|]. by apply (settledScoped_kept sc).
  - intros j sc2 H2 H0. destruct (scopes b !! j) as [sc1|] eqn:H1.
    + destruct (gr_new _ _ _ E1 j sc1 H1 H0) as [P1 C1].
      destruct (gr_scope _ _ _ E2 j sc1 H1) as (sc2' & H2' & P2 & N2 & C2).
      assert (sc2' = sc2) as -> by congruence.
      split; [congruence|]. intros n Hn. rewrite C2; [by apply C1|]. by left.
    + by apply (gr_new _ _ _ E2 j sc2).
  - pose proof (gr_allocated _ _ _ E1). pose proof (gr_allocated _ _ _ E2). lia.
  - intros n. pose proof (gr_more _ _ _ E1 n). pose proof (gr_more _ _ _ E2 n). lia.
  - intros n H. rewrite (gr_calls _ _ _ E2), (gr_calls _ _ _ E1); [done|done|].
    destruct H as [H|[H1 H2]]; [by left|]. right. split; [done|].
    unfold Map_get in *. rewrite (gr_singleton _ _ _ E1); [done|]. by right.
  - intros n H. rewrite (gr_singleton _ _ _ E2), (gr_singleton _ _ _ E1); [done|done|].
    destruct H as [H|H]; [by left|]. right.
    unfold Map_get in *. rewrite (gr_singleton _ _ _ E1); [done|]. by right.
Qed.

Lemma grows_allocate (w : World) : grows reg w (Across.allocate w).
Proof.
  split; simpl; try done; try lia.
  - intros j sc H. by exists sc.
  - intros j sc' H1 H2. congruence.
Qed.

Lemma grows_beginScope (w : World) : grows reg w (ServiceProvider.beginScope w).2.
Proof.
  split; simpl; try done.
  - intros j sc H. exists sc. split; [|done]. by apply lookup_app_l_Some.
  - intros j sc' H1 H2. apply lookup_ge_None in H2.
    rewrite lookup_app_r in H1 by done.
    destruct (j - length (scopes w)) as [|?]; [|done].
    injection H1 as <-. done.
Qed.

Lemma exec_grows (context : Across.Context) (contextOf : nat → Across.Context) :
  bounded reg context → (∀ j, bounded reg (contextOf j)) →
  ∀ c w, grows reg w (Across.exec context contextOf c w).2.
Proof.
  intros F1 F2. apply exec_preserves_across.
  - apply grows_refl.
  - apply grows_trans.
  - apply grows_allocate.
  - apply grows_beginScope.
  - apply F1.
  - intros j. apply F2.
Qed.

End Grows.

Section Bounded.

Context (reg : gmap string Across.Descriptor).

Lemma invoke_grows (context : Across.Context) (contextOf : nat → Across.Context)
    (i : nat) (n : string) (c : Across.code) (w : World) (sc : ScopeState) :
  bounded reg context → (∀ j, bounded reg (contextOf j)) →
  scopes w !! i = Some sc → ¬ atRest reg (shared w) n →
  grows reg w (Across.invoke context contextOf i n c w).2
  ∧ calledTimes n (shared w) < calledTimes n (shared (Across.invoke context contextOf i n c w).2)
  ∧ ∃ sc', scopes (Across.invoke context contextOf i n c w).2 !! i = Some sc'
      ∧ retainedScoped sc' !! n = retainedScoped sc !! n.
Proof.
  intros F1 F2 Hsc Hn. unfold Across.invoke. rewrite (entered i n w sc Hsc).
  set (sc0 := mkScope (name sc) (retainedScoped sc) (path sc ++ [n])).
  set (w0 := mkWorld _ _).
  assert (Hi : i < length (scopes w)) by (by eapply lookup_lt_Some).
  assert (H0 : scopes w0 !! i = Some sc0) by (by apply list_lookup_insert_eq).
  pose proof (exec_grows reg context contextOf F1 F2 c w0) as E.
  destruct (Across.exec context contextOf c w0) as [r w1]. simpl in E |- *.
  destruct (gr_scope _ _ _ E i sc0 H0) as (sc1 & H1 & P1 & N1 & C1).
  rewrite (onScope_pop i w1 sc1 H1).
  assert (Hi1 : i < length (scopes w1)) by (by eapply lookup_lt_Some).
  split; [split|split]; simpl.
  - intros j scj Hj. destruct (decide (j = i)) as [->|Hne].
    + assert (scj = sc) as -> by congruence.
      eexists. split; [by apply list_lookup_insert_eq|]. simpl.
      split; [rewrite P1; simpl; apply removelast_last|]. split; [done|].
      intros m Hm. apply C1. destruct Hm as [Hm|[Hm|Hm]]; [by left|by right; left|].
      right. right. simpl. rewrite elem_of_app. by left.
    + assert (Hj0 : scopes w0 !! j = Some scj) by (by simpl; rewrite list_lookup_insert_ne).
      destruct (gr_scope _ _ _ E j scj Hj0) as (scj1 & Hj1 & ?).
      exists scj1. split; [|done]. by rewrite list_lookup_insert_ne.
  - intros j sc' Hj' Hj.
    assert (Hne : i ≠ j) by (intros ->; congruence).
    rewrite list_lookup_insert_ne in Hj' by done.
    apply (gr_new _ _ _ E j sc' Hj'). simpl. by rewrite list_lookup_insert_ne.
  - apply (gr_allocated _ _ _ E).
  - intros m. pose proof (gr_more _ _ _ E m) as H. unfold w0 in H. simpl in H.
    rewrite calledTimes_snoc in H. destruct (shared w). simpl in *. lia.
  - intros m Hm. assert (Hne : n ≠ m) by (intros ->; done).
    rewrite (gr_calls _ _ _ E m); [|done]. unfold w0. simpl.
    rewrite calledTimes_snoc, decide_False by done. destruct (shared w). simpl. lia.
  - intros m Hm. by rewrite (gr_singleton _ _ _ E m).
  - pose proof (gr_more _ _ _ E n) as H. unfold w0 in H. simpl in H.
    rewrite calledTimes_snoc, decide_True in H by done. destruct (shared w). simpl in *. lia.
  - eexists. split; [by apply list_lookup_insert_eq|]. simpl. apply C1.
    right. right. simpl. rewrite elem_of_app, list_elem_of_singleton. by right.
Qed.

Lemma grows_setSingleton (i : nat) (n : string) (v : value) (w w' : World) :
  ¬ settledSingleton reg (shared w) n → is_Some (scopes w' !! i) →
  grows reg w w' → grows reg w (Across.onScope i (setSingleton n v) w').
Proof.
  intros Hn [sc' Hi] E. rewrite (onScope_setSingleton i n v w' sc' Hi).
  split; simpl; try apply E.
  intros m Hm. rewrite lookup_insert_ne; [by apply E|]. by intros ->.
Qed.

Lemma grows_setScoped (i : nat) (n : string) (v : value) (w w' : World) (sc : ScopeState) :
  scopes w !! i = Some sc → ¬ settledScoped reg sc n →
  grows reg w w' → grows reg w (Across.onScope i (setScoped n v) w').
Proof.
  intros Hsc Hn E. destruct (gr_scope _ _ _ E i sc Hsc) as (sc' & Hi & P & N & C).
  rewrite (onScope_setScoped i n v w' sc' Hi).
  assert (Hl : i < length (scopes w')) by (by eapply lookup_lt_Some).
  split; simpl; try apply E.
  - intros j scj Hj. destruct (decide (j = i)) as [->|Hne].
    + assert (scj = sc) as -> by congruence.
      eexists. split; [by apply list_lookup_insert_eq|]. simpl.
      do 2 (split; [done|]). intros m Hm. rewrite lookup_insert_ne; [by apply C|].
      by intros ->.
    + destruct (gr_scope _ _ _ E j scj Hj) as (scj' & Hj' & ?).
      exists scj'. split; [|done]. by rewrite list_lookup_insert_ne.
  - intros j scj' Hj' Hj.
    assert (Hne : i ≠ j) by (intros ->; congruence).
    rewrite list_lookup_insert_ne in Hj' by done.
    by apply (gr_new _ _ _ E j scj').
Qed.

Lemma lifetimeIn_Some (n : string) (d : Across.Descriptor) :
  reg !! n = Some d → lifetimeIn reg n = Some (Across.lifetime d).
Proof. intros H. unfold lifetimeIn. by rewrite H. Qed.

Lemma resolve_grows (context : Across.Context) (contextOf : nat → Across.Context)
    (i : nat) (n : string) (w : World) :
  bounded reg context → (∀ j, bounded reg (contextOf j)) →
  grows reg w (Across.resolve reg i n context contextOf w).2.
Proof.
  intros F1 F2. unfold Across.resolve.
  destruct (scopes w !! i) as [sc|] eqn:Hsc; [|apply grows_refl].
  destruct (throwErrorIfCircularReferenced n sc) eqn:Hc; [apply grows_refl|].
  apply circular_pass in Hc.
  destruct (reg !! n) as [d|] eqn:Hd; [|apply grows_refl].
  pose proof (lifetimeIn_Some n d Hd) as Hl.
  destruct (Across.lifetime d) eqn:Hk.
  - case_decide as Hu; [|apply grows_refl].
    assert (Hr : ¬ atRest reg (shared w) n).
    { intros [H|[_ H]]; congruence. }
    destruct (invoke_grows context contextOf i n (Across.create d) w sc F1 F2 Hsc Hr)
      as (E & _ & sc' & Hi & _).
    destruct (Across.invoke context contextOf i n (Across.create d) w) as [[v| |] w'];
      simpl in *; [|done..].
    apply grows_setSingleton; [|by eexists|done]. intros [H|H]; congruence.
  - case_decide as Hu; [|apply grows_refl].
    destruct (throwErrorIfLifetimeExceeded _ n sc); [apply grows_refl|].
    assert (Hr : ¬ atRest reg (shared w) n).
    { intros [H|[H _]]; congruence. }
    destruct (invoke_grows context contextOf i n (Across.create d) w sc F1 F2 Hsc Hr)
      as (E & _ & sc' & Hi & _).
    destruct (Across.invoke context contextOf i n (Across.create d) w) as [[v| |] w'];
      simpl in *; [|done..].
    apply (grows_setScoped i n v w w' sc); [done| |done].
    intros [H|[H|H]]; congruence.
  - assert (Hr : ¬ atRest reg (shared w) n).
    { intros [H|[H _]]; congruence. }
    by destruct (invoke_grows context contextOf i n (Across.create d) w sc F1 F2 Hsc Hr).
Qed.

Lemma createContext_bounded (fuel : nat) :
  ∀ i exoticContext, bounded reg (Across.createContext fuel reg i exoticContext).
Proof.
  induction fuel as [|fuel IH]; intros i x k w; simpl; [apply grows_refl|].
  unfold Across.handlerGet. destruct k as [n|d]; [|apply grows_refl].
  case_decide; [apply grows_refl|].
  destruct (x ≫= _) as [[v|getter]|]; simpl.
  - apply grows_refl.
  - apply exec_grows; [apply IH | intros j; apply IH].
  - apply resolve_grows; [apply IH | intros j; apply IH].
Qed.

End Bounded.

(** ** Factories that keep to their context *)

Lemma unfocus_id (i : nat) (w : World) (sc : ScopeState) :
  scopes w !! i = Some sc → Across.unfocus i (mkState (shared w) sc) w = w.
Proof.
  intros H. unfold Across.unfocus. simpl. rewrite list_insert_id by done. by destruct w.
Qed.

Lemma unfocus_unfocus (i : nat) (st st' : state) (w : World) :
  Across.unfocus i st' (Across.unfocus i st w) = Across.unfocus i st' w.
Proof. unfold Across.unfocus. simpl. by rewrite list_insert_insert_eq. Qed.

Lemma lookup_unfocus (i : nat) (st : state) (w : World) :
  i < length (scopes w) → scopes (Across.unfocus i st w) !! i = Some (scope st).
Proof. intros H. simpl. by apply list_lookup_insert_eq. Qed.

Lemma onScope_unfocus (i : nat) (f : state → state) (st : state) (w : World) :
  i < length (scopes w) →
  Across.onScope i f (Across.unfocus i st w) = Across.unfocus i (f st) w.
Proof.
  intros H. unfold Across.onScope. rewrite lookup_unfocus by done.
  rewrite unfocus_unfocus. by destruct st.
Qed.

Lemma onScope_focus (i : nat) (f : state → state) (w : World) (sc : ScopeState) :
  scopes w !! i = Some sc →
  Across.onScope i f w = Across.unfocus i (f (mkState (shared w) sc)) w.
Proof. intros H. unfold Across.onScope. by rewrite H. Qed.

Lemma lifetimeWalk_lifetimes (reg : gmap string Descriptor) (n : string) (sc : ScopeState)
    (k : nat) :
  lifetimeWalk (Across.lifetimes (liftRegistry reg)) n sc k = lifetimeWalk reg n sc k.
Proof.
  induction k as [|k IH]; simpl; [done|].
  destruct (path sc !! k) as [entry|]; [|done].
  rewrite <- IH. unfold ServiceRegistry.get.
  assert (Across.lifetimes (liftRegistry reg) !! entry
          = (λ d, lifetimeOnly (lifetime d)) <$> reg !! entry) as ->.
  { unfold Across.lifetimes, liftRegistry. rewrite !lookup_fmap.
    by destruct (reg !! entry). }
  by destruct (reg !! entry) as [d|].
Qed.

Lemma exec_lift (i : nat) (context : Across.Context) (contextOf : nat → Across.Context)
    (c : Context) :
  follows i context c →
  ∀ body w sc, scopes w !! i = Some sc →
    Across.exec context contextOf (lift body) w
    = unfocused i w (exec c body (mkState (shared w) sc)).
Proof.
  intros F. induction body as [v|e|k IH|n k IH]; intros w sc Hsc; simpl.
  - unfold unfocused. simpl. by rewrite unfocus_id.
  - unfold unfocused. simpl. by rewrite unfocus_id.
  - by rewrite (IH _ (Across.allocate w) sc Hsc).
  - rewrite (F n w sc Hsc). unfold unfocused.
    destruct (get c n (mkState (shared w) sc)) as [r st1]. simpl.
    assert (Hi : i < length (scopes w)) by (by eapply lookup_lt_Some).
    destruct r as [v|e|]; [| |done];
      (rewrite (IH _ (Across.unfocus i st1 w) (scope st1)) by (by apply lookup_unfocus);
       unfold unfocused; rewrite unfocus_unfocus; by destruct st1).
Qed.

Lemma invoke_lift (i : nat) (context : Across.Context) (contextOf : nat → Across.Context)
    (c : Context) (n : string) (body : code) (w : World) (sc : ScopeState) :
  follows i context c → scopes w !! i = Some sc →
  Across.invoke context contextOf i n (lift body) w
  = unfocused i w (invoke c n body (mkState (shared w) sc)).
Proof.
  intros F Hsc. unfold Across.invoke, invoke.
  assert (Hi : i < length (scopes w)) by (by eapply lookup_lt_Some).
  rewrite (onScope_focus i (push n) w sc Hsc), onScope_unfocus by done.
  set (st0 := called n (push n (mkState (shared w) sc))).
  pose proof (exec_lift i context contextOf c F body (Across.unfocus i st0 w) (scope st0)
                (lookup_unfocus i st0 w Hi)) as E.
  change (mkState (shared (Across.unfocus i st0 w)) (scope st0)) with st0 in E.
  rewrite E. destruct (exec c body st0) as [r st1].
  unfold unfocused. simpl. f_equal.
  by rewrite unfocus_unfocus, onScope_unfocus.
Qed.

Lemma resolve_lift (reg : gmap string Descriptor) (i : nat) (context : Across.Context)
    (contextOf : nat → Across.Context) (c : Context) (n : string) (w : World)
    (sc : ScopeState) :
  follows i context c → scopes w !! i = Some sc →
  Across.resolve (liftRegistry reg) i n context contextOf w
  = unfocused i w (resolve reg n c (mkState (shared w) sc)).
Proof.
  intros F Hsc. unfold Across.resolve, resolve. rewrite Hsc. simpl.
  assert (Hi : i < length (scopes w)) by (by eapply lookup_lt_Some).
  assert (Hid : ∀ r, (r, w) = unfocused i w (r, mkState (shared w) sc)).
  { intros r. unfold unfocused. simpl. by rewrite unfocus_id. }
  destruct (throwErrorIfCircularReferenced n sc); [apply Hid|].
  unfold ServiceRegistry.get, liftRegistry. rewrite lookup_fmap.
  destruct (reg !! n) as [d|]; simpl; [|apply Hid].
  pose proof (invoke_lift i context contextOf c n (create d) w sc F Hsc) as I.
  destruct (lifetime d).
  - case_decide; [|apply Hid]. rewrite I.
    destruct (invoke c n (create d) (mkState (shared w) sc)) as [[v| |] st1];
      unfold unfocused; simpl; [|done..].
    by rewrite onScope_unfocus.
  - case_decide; [|apply Hid].
    change (fmap liftDescriptor reg) with (liftRegistry reg).
    unfold throwErrorIfLifetimeExceeded. rewrite lifetimeWalk_lifetimes.
    destruct (lifetimeWalk reg n sc (length (path sc))); [apply Hid|]. rewrite I.
    destruct (invoke c n (create d) (mkState (shared w) sc)) as [[v| |] st1];
      unfold unfocused; simpl; [|done..].
    by rewrite onScope_unfocus.
  - apply I.
Qed.

(** On factories that read the context they are handed, a context over the
    provider does what the context of the scope does, and changes no other
    scope. *)
Lemma createContext_lift (reg : gmap string Descriptor)
    (exoticContext : option (gmap string Property)) (fuel : nat) (i : nat) :
  follows i (Across.createContext fuel (liftRegistry reg) i (liftExotic exoticContext))
    (createContext fuel reg exoticContext).
Proof.
  induction fuel as [|fuel IH]; intros k w sc Hsc; simpl.
  - unfold unfocused. simpl. by rewrite unfocus_id.
  - unfold Across.handlerGet, handlerGet.
    assert (Hid : ∀ r, (r, w) = unfocused i w (r, mkState (shared w) sc)).
    { intros r. unfold unfocused. simpl. by rewrite unfocus_id. }
    destruct k as [n|d]; [|apply Hid].
    case_decide; [apply Hid|].
    assert (liftExotic exoticContext ≫= (λ e, e !! n)
            = liftProperty <$> (exoticContext ≫= (λ e, e !! n))) as ->.
    { destruct exoticContext as [e|]; simpl; [|done]. by rewrite lookup_fmap. }
    destruct (exoticContext ≫= _) as [[v|getter]|]; simpl.
    + apply Hid.
    + by apply exec_lift.
    + by apply resolve_lift.
Qed.

(** ** Runs of the provider *)

Lemma get_reachesOn (fuel : nat) (reg : gmap string Across.Descriptor) (i : nat)
    (exoticContext : option (gmap string Across.Property)) (n : string) (w : World) :
  reachesOn exoticContext n →
  Across.createContext (S fuel) reg i exoticContext (KString n) w
  = Across.resolve reg i n (Across.createContext fuel reg i exoticContext)
      (λ j, Across.createContext fuel reg j None) w.
Proof.
  intros [H1 H2]. simpl. unfold Across.handlerGet. rewrite decide_False by done.
  by rewrite H2.
Qed.

Lemma reachesOn_lift (x : option (gmap string Property)) (n : string) :
  reaches x n ↔ reachesOn (liftExotic x) n.
Proof.
  unfold reaches, reachesOn. destruct x as [e|]; simpl; [|tauto].
  rewrite lookup_fmap. destruct (e !! n); simpl; split; intros [? ?]; split; done.
Qed.

Lemma idle_grows (reg : gmap string Across.Descriptor) (w w' : World) :
  idle w → grows reg w w' → idle w'.
Proof.
  unfold idle. rewrite !Forall_lookup. intros Hw E j sc' Hj.
  destruct (scopes w !! j) as [sc|] eqn:H0.
  - destruct (gr_scope _ _ _ E j sc H0) as (sc'' & H1 & P & _).
    assert (sc'' = sc') as -> by congruence. rewrite P. by apply (Hw j).
  - by destruct (gr_new _ _ _ E j sc' Hj H0).
Qed.

Lemma perform_grows (fuel : nat) (reg : gmap string Across.Descriptor) (op : Across.Op)
    (w : World) :
  grows reg w (Across.perform fuel reg op w).2.
Proof.
  destruct op as [|i x k]; simpl; [apply grows_beginScope|].
  destruct (scopes w !! i); [|apply grows_refl].
  pose proof (createContext_bounded reg fuel i x k w) as E.
  by destruct (Across.createContext fuel reg i x k w).
Qed.

Lemma run_grows (fuel : nat) (reg : gmap string Across.Descriptor) (ops : list Across.Op) :
  ∀ w, grows reg w (Across.run fuel reg ops w).2.
Proof.
  induction ops as [|op ops IH]; intros w; simpl; [apply grows_refl|].
  pose proof (perform_grows fuel reg op w) as E1.
  destruct (Across.perform fuel reg op w) as [r w1].
  pose proof (IH w1) as E2. destruct (Across.run fuel reg ops w1) as [log w2].
  simpl in *. by eapply grows_trans.
Qed.

(** The log of a run, one step at a time: what holds of every read made on
    a provider that the run has reached holds of the log. *)
Lemma run_log (fuel : nat) (reg : gmap string Across.Descriptor)
    (P : Across.Op → completion → Prop) (ops : list Across.Op) :
  ∀ w,
  (∀ w1 i x k, grows reg w w1 → is_Some (scopes w1 !! i) →
     P (Across.Access i x k) (Across.createContext fuel reg i x k w1).1) →
  Forall (λ e, P e.1 e.2) (Across.run fuel reg ops w).1.
Proof.
  induction ops as [|op ops IH]; intros w H; simpl; [done|].
  pose proof (perform_grows fuel reg op w) as E1.
  destruct (Across.perform fuel reg op w) as [r w1] eqn:Hp.
  assert (H1 : Forall (λ e, P e.1 e.2) (Across.run fuel reg ops w1).1).
  { apply IH. intros w2 i x k E2. apply H. by eapply grows_trans. }
  destruct (Across.run fuel reg ops w1) as [log w2]. simpl in *.
  destruct r as [c|]; [|done]. apply Forall_cons. split; [|done].
  destruct op as [|i x k]; simpl in Hp; [done|].
  destruct (scopes w !! i) eqn:Hi; [|done].
  pose proof (H w i x k (grows_refl reg w)) as Hw. rewrite Hi in Hw.
  destruct (Across.createContext fuel reg i x k w). injection Hp as <- _.
  simpl. apply Hw. eauto.
Qed.

Lemma perform_lift (fuel : nat) (reg : gmap string Descriptor) (op : Op) (w : World) :
  Across.perform fuel (liftRegistry reg) (liftOp op) w = perform fuel reg op w.
Proof.
  destruct op as [|i x k]; simpl; [done|].
  destruct (scopes w !! i) as [sc|] eqn:Hsc; [|done].
  rewrite (createContext_lift reg x fuel i k w sc Hsc). unfold unfocused.
  by destruct (get (createContext fuel reg x) k (mkState (shared w) sc)).
Qed.

Lemma run_lift (fuel : nat) (reg : gmap string Descriptor) (ops : list Op) :
  ∀ w, (Across.run fuel (liftRegistry reg) (liftOp <$> ops) w).2 = (run fuel reg ops w).2
       ∧ (Across.run fuel (liftRegistry reg) (liftOp <$> ops) w).1.*2
         = (run fuel reg ops w).1.*2.
Proof.
  induction ops as [|op ops IH]; intros w; [done|].
  rewrite fmap_cons. cbn [Across.run run].
  rewrite perform_lift. destruct (perform fuel reg op w) as [r w1].
  destruct (IH w1) as [I1 I2].
  destruct (Across.run fuel (liftRegistry reg) (liftOp <$> ops) w1) as [log' w2'].
  destruct (run fuel reg ops w1) as [log w2]. simpl in *.
  split; [done|]. destruct r; [|done]. rewrite !fmap_cons. simpl. by rewrite I2.
Qed.

Lemma exec_bind_across (context : Across.Context) (contextOf : nat → Across.Context)
    (c : Across.code) (f : value → Across.code) (w : World) :
  Across.exec context contextOf (Across.bind c f) w
  = match Across.exec context contextOf c w with
    | (Normal v, w') => Across.exec context contextOf (f v) w'
    | abrupt => abrupt
    end.
Proof.
  revert w. induction c as [v|e|k IH|n k IH|j n k IH|k IH]; intros w; simpl;
    [done|done|apply IH| | |apply IH].
  - destruct (context n w) as [[v| |] w']; [apply IH|apply IH|done].
  - destruct (contextOf j n w) as [[v| |] w']; [apply IH|apply IH|done].
Qed.

Lemma construct_exec_across (context : Across.Context) (contextOf : nat → Across.Context)
    (body : Across.code) (w : World) :
  Across.exec context contextOf (Across.construct body) w
  = match Across.exec context contextOf body (Across.allocate w) with
    | (Normal v, w') =>
        (Normal (match v with VObject _ => v | _ => VObject (allocated (shared w)) end), w')
    | abrupt => abrupt
    end.
Proof.
  unfold Across.construct. cbn [Across.exec]. rewrite exec_bind_across.
  by destruct (Across.exec context contextOf body (Across.allocate w)) as [[v| |] w'].
Qed.

Lemma resolve_across_singleton_hit (reg : gmap string Across.Descriptor)
    (context : Across.Context) (contextOf : nat → Across.Context) (i : nat) (n : string)
    (d : Across.Descriptor) (v : value) (w : World) (sc : ScopeState) :
  reg !! n = Some d → Across.lifetime d = Singleton →
  scopes w !! i = Some sc → n ∉ path sc →
  retainedSingleton (shared w) !! n = Some v → v ≠ VUndefined →
  Across.resolve reg i n context contextOf w = (Normal v, w).
Proof.
  intros Hd Hl Hsc Hp Hc Hv. unfold Across.resolve. rewrite Hsc.
  apply circular_pass in Hp. rewrite Hp, Hd, Hl. unfold Map_get. rewrite Hc. simpl.
  by rewrite decide_False.
Qed.

Lemma resolve_across_scoped_hit (reg : gmap string Across.Descriptor)
    (context : Across.Context) (contextOf : nat → Across.Context) (i : nat) (n : string)
    (d : Across.Descriptor) (v : value) (w : World) (sc : ScopeState) :
  reg !! n = Some d → Across.lifetime d = Scoped →
  scopes w !! i = Some sc → n ∉ path sc →
  retainedScoped sc !! n = Some v → v ≠ VUndefined →
  Across.resolve reg i n context contextOf w = (Normal v, w).
Proof.
  intros Hd Hl Hsc Hp Hc Hv. unfold Across.resolve. rewrite Hsc.
  apply circular_pass in Hp. rewrite Hp, Hd, Hl. unfold Map_get. rewrite Hc. simpl.
  by rewrite decide_False.
Qed.

Lemma idle_absent (w : World) (i : nat) (sc : ScopeState) (n : string) :
  idle w → scopes w !! i = Some sc → n ∉ path sc.
Proof.
  unfold idle. rewrite Forall_lookup. intros Hw Hsc. rewrite (Hw i sc Hsc).
  apply not_elem_of_nil.
Qed.

(** A resolution under factories that keep to their context is a resolution
    of the scope alone. *)
Lemma resolve_local (reg : gmap string Descriptor) (x : option (gmap string Property))
    (fuel : nat) (contextOf : nat → Across.Context) (i : nat) (n : string)
    (w w' : World) (sc : ScopeState) (r : completion) :
  scopes w !! i = Some sc →
  Across.resolve (liftRegistry reg) i n
    (Across.createContext fuel (liftRegistry reg) i (liftExotic x)) contextOf w = (r, w') →
  ∃ st', resolve reg n (createContext fuel reg x) (mkState (shared w) sc) = (r, st')
         ∧ w' = Across.unfocus i st' w.
Proof.
  intros Hsc H.
  rewrite (resolve_lift reg i _ contextOf (createContext fuel reg x) n w sc) in H;
    [|apply createContext_lift|done].
  destruct (resolve reg n (createContext fuel reg x) (mkState (shared w) sc)) as [r' st'].
  unfold unfocused in H. simpl in H. injection H as -> <-. by exists st'.
Qed.

Lemma liftRegistry_Some (reg : gmap string Descriptor) (n : string) (d : Across.Descriptor) :
  liftRegistry reg !! n = Some d →
  ∃ d0, reg !! n = Some d0 ∧ Across.lifetime d = lifetime d0 ∧ d = liftDescriptor d0.
Proof.
  unfold liftRegistry. rewrite lookup_fmap. destruct (reg !! n) as [d0|]; [|done].
  intros [= <-]. by exists d0.
Qed.

(** A resolution that reaches construction and completes normally has
    invoked the factory exactly once, when the factories keep to their
    context. *)
Lemma resolve_once (reg : gmap string Descriptor) (x : option (gmap string Property))
    (fuel : nat) (n : string) (d : Descriptor) (st st' : state) (v : value) :
  reg !! n = Some d → missing reg st n (lifetime d) →
  resolve reg n (createContext fuel reg x) st = (Normal v, st') →
  invocations n st' = invocations n st + 1.
Proof.
  intros Hd M Hr.
  destruct (decide (lifetime d = Scoped
                    ∧ throwErrorIfLifetimeExceeded reg n (scope st) ≠ None)) as [[Hl Hg]|Hg].
  { exfalso. destruct M as (Hp & _ & Hc). rewrite Hl in Hc. unfold resolve in Hr.
    apply circular_pass in Hp. rewrite Hp in Hr. unfold ServiceRegistry.get in Hr.
    rewrite Hd, Hl in Hr. rewrite decide_True in Hr by done.
    by destruct (throwErrorIfLifetimeExceeded reg n (scope st)). }
  rewrite (resolve_constructs reg _ n d _ Hd M) in Hr.
  - apply (stored_normal reg) in Hr as (s & _ & I & ->); [|apply createContext_framed].
    pose proof (in_once _ _ _ _ I) as Ho. destruct (lifetime d); exact Ho.
  - intros Hl. destruct (throwErrorIfLifetimeExceeded reg n (scope st)) eqn:E; [|done].
    destruct Hg. by split.
Qed.

(** ** Singletons, whatever the factories read *)

(** C2, counterexample: a singleton whose factory returns [undefined], and
    one whose factory throws, are constructed again by the next read, here
    from a second scope of the same provider; a read of a cached singleton on
    a context whose exotic context has the name returns the exotic value; and
    a singleton whose factory reads its own name on a context kept from
    another scope is constructed twice by a single read, the instance stored
    first being replaced by the second. *)
Lemma singleton_constructed_again :
  run 1 demo [BeginScope; Access 0 None (KString "u");
              BeginScope; Access 1 None (KString "u")] ServiceProvider.new
  = ([(Access 0 None (KString "u"), Normal VUndefined);
      (Access 1 None (KString "u"), Normal VUndefined)],
     mkWorld (mkProvider ["u"; "u"] 0 {["u" := VUndefined]})
             [ServiceProvider.newScope; ServiceProvider.newScope])
  ∧ run 1 demo [BeginScope; Access 0 None (KString "f");
                BeginScope; Access 1 None (KString "f")] ServiceProvider.new
  = ([(Access 0 None (KString "f"), Throw (UserError (VString "boom")));
      (Access 1 None (KString "f"), Throw (UserError (VString "boom")))],
     mkWorld (mkProvider ["f"; "f"] 0 ∅)
             [ServiceProvider.newScope; ServiceProvider.newScope])
  ∧ (run 2 demo [Access 0 None (KString "s");
                 Access 0 (Some {["s" := Data (VNumber 7)]}) (KString "s")] begun).1
  = [(Access 0 None (KString "s"), Normal (VObject 0));
     (Access 0 (Some {["s" := Data (VNumber 7)]}) (KString "s"), Normal (VNumber 7))]
  ∧ Across.run 3 reentrant [Across.Access 1 None (KString "a")] begunTwice
  = ([(Across.Access 1 None (KString "a"), Normal (VObject 1))],
     mkWorld (mkProvider ["a"; "a"] 2 {["a" := VObject 1]})
             [ServiceProvider.newScope; ServiceProvider.newScope]).
Proof. repeat split; vm_compute; reflexivity. Qed.

(** C2, as amended: for a name registered as singleton, a resolution that
    finds nothing in the provider's cache and completes normally has invoked
    the factory, exactly once when the factories and getters read only the
    context they are handed, and has stored its instance in the provider's
    singleton cache; a resolution that finds an instance other than
    [undefined] there returns it and touches nothing.  Once such an instance
    is in the cache and no resolution is in progress, whatever scopes are
    begun from the provider, whatever is read on them and whatever the
    factories read, the factory is not invoked again, the cache keeps the
    instance, and every read of the name that reaches resolution returns
    that same instance. *)
Theorem singleton_constructed_once (reg : gmap string Across.Descriptor) (n : string)
    (d : Across.Descriptor) :
  reg !! n = Some d → Across.lifetime d = Singleton →
  (∀ fuel i x w sc v w',
     scopes w !! i = Some sc →
     Map_get (retainedSingleton (shared w)) n = VUndefined →
     Across.resolve reg i n (Across.createContext fuel reg i x)
       (λ j, Across.createContext fuel reg j None) w = (Normal v, w') →
     calledTimes n (shared w) < calledTimes n (shared w')
     ∧ retainedSingleton (shared w') !! n = Some v
     ∧ (∀ reg0 x0, reg = liftRegistry reg0 → x = liftExotic x0 →
          calledTimes n (shared w') = calledTimes n (shared w) + 1))
  ∧ (∀ context contextOf i w sc v,
       scopes w !! i = Some sc → n ∉ path sc →
       retainedSingleton (shared w) !! n = Some v → v ≠ VUndefined →
       Across.resolve reg i n context contextOf w = (Normal v, w))
  ∧ (∀ fuel w v ops,
       0 < fuel → idle w → retainedSingleton (shared w) !! n = Some v → v ≠ VUndefined →
       calledTimes n (shared (Across.run fuel reg ops w).2) = calledTimes n (shared w)
       ∧ retainedSingleton (shared (Across.run fuel reg ops w).2) !! n = Some v
       ∧ Forall (λ e, ∀ j x, e.1 = Across.Access j x (KString n) → reachesOn x n →
                      e.2 = Normal v)
           (Across.run fuel reg ops w).1).
Proof.
  intros Hd Hl. pose proof (lifetimeIn_Some reg n d Hd) as Hk. rewrite Hl in Hk.
  split; [|split].
  - intros fuel i x w sc v w' Hsc Hm Hr.
    assert (Hp : n ∉ path sc).
    { unfold Across.resolve in Hr. rewrite Hsc in Hr.
      destruct (throwErrorIfCircularReferenced n sc) eqn:Hc; [done|].
      by apply circular_pass in Hc. }
    split; [|split].
    + unfold Across.resolve in Hr. rewrite Hsc in Hr.
      apply circular_pass in Hp. rewrite Hp, Hd, Hl, decide_True in Hr by done.
      destruct (invoke_grows reg (Across.createContext fuel reg i x)
                  (λ j, Across.createContext fuel reg j None) i n (Across.create d) w sc)
        as (_ & Hc & sc' & Hi & _);
        [apply createContext_bounded | intros j; apply createContext_bounded | done | |].
      { intros [H|[_ H]]; congruence. }
      destruct (Across.invoke _ _ i n (Across.create d) w) as [[u| |] w1]; [|done..].
      injection Hr as <- <-. by rewrite (onScope_setSingleton i n u w1 sc' Hi).
    + unfold Across.resolve in Hr. rewrite Hsc in Hr.
      apply circular_pass in Hp. rewrite Hp, Hd, Hl, decide_True in Hr by done.
      destruct (invoke_grows reg (Across.createContext fuel reg i x)
                  (λ j, Across.createContext fuel reg j None) i n (Across.create d) w sc)
        as (_ & _ & sc' & Hi & _);
        [apply createContext_bounded | intros j; apply createContext_bounded | done | |].
      { intros [H|[_ H]]; congruence. }
      destruct (Across.invoke _ _ i n (Across.create d) w) as [[u| |] w1]; [|done..].
      injection Hr as <- <-. rewrite (onScope_setSingleton i n u w1 sc' Hi). simpl.
      apply lookup_insert_eq.
    + intros reg0 x0 -> ->.
      apply liftRegistry_Some in Hd as (d0 & Hd0 & Hl0 & _).
      apply (resolve_local reg0 x0 fuel _ i n w w' sc _ Hsc) in Hr as (st' & Hr & ->).
      assert (Hs : lifetime d0 = Singleton) by congruence.
      assert (M : missing reg0 (mkState (shared w) sc) n (lifetime d0)).
      { rewrite Hs. split; [done|]. split; [|done]. unfold lifetimeOf. rewrite Hd0.
        simpl. by rewrite Hs. }
      apply (resolve_once reg0 x0 fuel n d0 _ st' v Hd0 M Hr).
  - intros context contextOf i w sc v Hsc Hp Hc Hv.
    by apply (resolve_across_singleton_hit reg context contextOf i n d v w sc).
  - intros fuel w v ops Hf Hw Hc Hv.
    assert (Hm : Map_get (retainedSingleton (shared w)) n ≠ VUndefined).
    { unfold Map_get. by rewrite Hc. }
    pose proof (run_grows fuel reg ops w) as E.
    split; [apply (gr_calls _ _ _ E); by right|].
    split; [rewrite (gr_singleton _ _ _ E); [done | by right]|].
    apply (run_log fuel reg
             (λ op c, ∀ j x, op = Across.Access j x (KString n) → reachesOn x n →
                             c = Normal v)).
    intros w1 i x k E1 [sc1 H1] j y [= -> -> ->] Hy.
    destruct fuel as [|fuel]; [lia|]. rewrite (get_reachesOn fuel reg j y n w1 Hy).
    rewrite (resolve_across_singleton_hit reg _ _ j n d v w1 sc1); try done.
    + apply (idle_absent w1 j); [|done]. by apply (idle_grows reg w).
    + rewrite (gr_singleton _ _ _ E1); [done | by right].
Qed.

Lemma singleton_constructed_once_witness :
  (calledTimes "a" (shared begunTwice)
   < calledTimes "a"
       (shared (Across.resolve reentrant 1 "a" (Across.createContext 2 reentrant 1 None)
                  (λ j, Across.createContext 2 reentrant j None) begunTwice).2)
   ∧ retainedSingleton
       (shared (Across.resolve reentrant 1 "a" (Across.createContext 2 reentrant 1 None)
                  (λ j, Across.createContext 2 reentrant j None) begunTwice).2) !! "a"
     = Some (VObject 1))
  ∧ calledTimes "a"
      (shared (Across.run 3 reentrant [Across.Begin; Across.Access 2 None (KString "a")]
                 (Across.run 3 reentrant [Across.Access 1 None (KString "a")]
                    begunTwice).2).2)
    = calledTimes "a"
        (shared (Across.run 3 reentrant [Across.Access 1 None (KString "a")] begunTwice).2)
  ∧ calledTimes "s"
      (shared (Across.resolve (liftRegistry demo) 0 "s"
                 (Across.createContext 1 (liftRegistry demo) 0 None)
                 (λ j, Across.createContext 1 (liftRegistry demo) j None) begun).2)
    = calledTimes "s" (shared begun) + 1.
Proof.
  pose proof (singleton_constructed_once reentrant "a"
                (Across.mkDescriptor Singleton (again "a"))) as H.
  destruct H as (H1 & _ & H3).
  - reflexivity.
  - reflexivity.
  - split; [|split].
    + destruct (H1 2 1 None begunTwice ServiceProvider.newScope (VObject 1)
                  (Across.resolve reentrant 1 "a" (Across.createContext 2 reentrant 1 None)
                     (λ j, Across.createContext 2 reentrant j None) begunTwice).2)
        as (A & B & _).
      * reflexivity.
      * reflexivity.
      * vm_compute. reflexivity.
      * split; [exact A | exact B].
    + apply (H3 3 (Across.run 3 reentrant [Across.Access 1 None (KString "a")]
                     begunTwice).2 (VObject 1)).
      * lia.
      * by_decide.
      * vm_compute. reflexivity.
      * discriminate.
    + pose proof (singleton_constructed_once (liftRegistry demo) "s"
                    (liftDescriptor (mkDescriptor Singleton (Dep "t" Return)))) as L.
      destruct L as (L1 & _); [vm_compute; reflexivity | reflexivity |].
      destruct (L1 1 0 None begun ServiceProvider.newScope (VObject 0)
                  (Across.resolve (liftRegistry demo) 0 "s"
                     (Across.createContext 1 (liftRegistry demo) 0 None)
                     (λ j, Across.createContext 1 (liftRegistry demo) j None) begun).2)
        as (_ & _ & C).
      * reflexivity.
      * reflexivity.
      * vm_compute. reflexivity.
      * apply (C demo None); reflexivity.
Defined.

(** ** Scoped services, whatever the factories read *)

(** C6, counterexample: a scoped service whose factory returns [undefined],
    and one whose factory throws, are constructed again by the next read in
    the same scope; a read of a cached scoped service on a context whose
    exotic context has the name returns the exotic value; and a scoped
    service whose factory reads its own name on a context kept from another
    scope is constructed twice by a single read, and cached in both
    scopes. *)
Lemma scoped_constructed_again :
  run 1 demo [Access 0 None (KString "w"); Access 0 None (KString "w")] begun
  = ([(Access 0 None (KString "w"), Normal VUndefined);
      (Access 0 None (KString "w"), Normal VUndefined)],
     mkWorld (mkProvider ["w"; "w"] 0 ∅) [mkScope LNull {["w" := VUndefined]} []])
  ∧ run 1 demo [Access 0 None (KString "g"); Access 0 None (KString "g")] begun
  = ([(Access 0 None (KString "g"), Throw (UserError (VString "boom")));
      (Access 0 None (KString "g"), Throw (UserError (VString "boom")))],
     mkWorld (mkProvider ["g"; "g"] 0 ∅) [ServiceProvider.newScope])
  ∧ (run 1 demo [Access 0 None (KString "x");
                 Access 0 (Some {["x" := Data (VNumber 7)]}) (KString "x")] begun).1
  = [(Access 0 None (KString "x"), Normal (VObject 0));
     (Access 0 (Some {["x" := Data (VNumber 7)]}) (KString "x"), Normal (VNumber 7))]
  ∧ Across.run 3 reentrant [Across.Access 1 None (KString "b")] begunTwice
  = ([(Across.Access 1 None (KString "b"), Normal (VObject 1))],
     mkWorld (mkProvider ["b"; "b"] 2 ∅)
             [mkScope LNull {["b" := VObject 0]} []; mkScope LNull {["b" := VObject 1]} []]).
Proof. repeat split; vm_compute; reflexivity. Qed.

(** C6, as amended: for a name registered as scoped, a resolution that finds
    nothing in the scope's cache and completes normally has invoked the
    factory and has stored its instance in the scoped cache of that scope,
    the singleton cache being as before; when the factories and getters read
    only the context they are handed, the factory has been invoked exactly
    once and no other scope has changed.  A resolution that finds an instance
    other than [undefined] in the scope's cache returns it and touches
    nothing.  Once such an instance is in the cache of a scope and no
    resolution is in progress, whatever is read on whatever scope and
    whatever the factories read, the scope keeps it and every read of the
    name in that scope that reaches resolution returns it; and work in that
    scope with factories that read only the context they are handed does not
    invoke the factory again.  A newly begun scope has an empty cache, so
    that the first read of the name there constructs again. *)
Theorem scoped_constructed_once_per_scope (reg : gmap string Across.Descriptor)
    (n : string) (d : Across.Descriptor) :
  reg !! n = Some d → Across.lifetime d = Scoped →
  (∀ fuel i x w sc v w',
     scopes w !! i = Some sc →
     Map_get (retainedScoped sc) n = VUndefined →
     Across.resolve reg i n (Across.createContext fuel reg i x)
       (λ j, Across.createContext fuel reg j None) w = (Normal v, w') →
     calledTimes n (shared w) < calledTimes n (shared w')
     ∧ cachedIn n v i w'
     ∧ retainedSingleton (shared w') !! n = retainedSingleton (shared w) !! n
     ∧ (∀ reg0 x0, reg = liftRegistry reg0 → x = liftExotic x0 →
          calledTimes n (shared w') = calledTimes n (shared w) + 1
          ∧ ∀ j, j ≠ i → scopes w' !! j = scopes w !! j))
  ∧ (∀ context contextOf i w sc v,
       scopes w !! i = Some sc → n ∉ path sc →
       retainedScoped sc !! n = Some v → v ≠ VUndefined →
       Across.resolve reg i n context contextOf w = (Normal v, w))
  ∧ (∀ fuel w i v ops,
       0 < fuel → idle w → cachedIn n v i w → v ≠ VUndefined →
       cachedIn n v i (Across.run fuel reg ops w).2
       ∧ Forall (λ e, ∀ x, e.1 = Across.Access i x (KString n) → reachesOn x n →
                      e.2 = Normal v)
           (Across.run fuel reg ops w).1
       ∧ (∀ reg0 ops0, reg = liftRegistry reg0 → ops = liftOp <$> ops0 →
            Forall (within i) ops0 →
            calledTimes n (shared (Across.run fuel reg ops w).2) = calledTimes n (shared w)))
  ∧ (∀ w, scopes (ServiceProvider.beginScope w).2 !! (ServiceProvider.beginScope w).1
          = Some ServiceProvider.newScope
          ∧ Map_get (retainedScoped ServiceProvider.newScope) n = VUndefined).
Proof.
  intros Hd Hl. pose proof (lifetimeIn_Some reg n d Hd) as Hk. rewrite Hl in Hk.
  split; [|split; [|split]].
  - intros fuel i x w sc v w' Hsc Hm Hr.
    assert (Hp : n ∉ path sc).
    { unfold Across.resolve in Hr. rewrite Hsc in Hr.
      destruct (throwErrorIfCircularReferenced n sc) eqn:Hc; [done|].
      by apply circular_pass in Hc. }
    pose proof (resolve_grows reg (Across.createContext fuel reg i x)
                  (λ j, Across.createContext fuel reg j None) i n w
                  (createContext_bounded reg fuel i x)
                  (λ j, createContext_bounded reg fuel j None)) as E.
    rewrite Hr in E. simpl in E.
    split; [|split; [|split]].
    + unfold Across.resolve in Hr. rewrite Hsc in Hr.
      apply circular_pass in Hp. rewrite Hp, Hd, Hl, decide_True in Hr by done.
      destruct (throwErrorIfLifetimeExceeded _ n sc); [done|].
      destruct (invoke_grows reg (Across.createContext fuel reg i x)
                  (λ j, Across.createContext fuel reg j None) i n (Across.create d) w sc)
        as (_ & Hc & sc' & Hi & _);
        [apply createContext_bounded | intros j; apply createContext_bounded | done | |].
      { intros [H|[H _]]; congruence. }
      destruct (Across.invoke _ _ i n (Across.create d) w) as [[u| |] w1]; [|done..].
      injection Hr as <- <-. by rewrite (onScope_setScoped i n u w1 sc' Hi).
    + unfold Across.resolve in Hr. rewrite Hsc in Hr.
      apply circular_pass in Hp. rewrite Hp, Hd, Hl, decide_True in Hr by done.
      destruct (throwErrorIfLifetimeExceeded _ n sc); [done|].
      destruct (invoke_grows reg (Across.createContext fuel reg i x)
                  (λ j, Across.createContext fuel reg j None) i n (Across.create d) w sc)
        as (_ & _ & sc' & Hi & _);
        [apply createContext_bounded | intros j; apply createContext_bounded | done | |].
      { intros [H|[H _]]; congruence. }
      destruct (Across.invoke _ _ i n (Across.create d) w) as [[u| |] w1]; [|done..].
      injection Hr as <- <-. rewrite (onScope_setScoped i n u w1 sc' Hi).
      eexists. split; [simpl; apply list_lookup_insert_eq; by eapply lookup_lt_Some|].
      simpl. apply lookup_insert_eq.
    + apply (gr_singleton _ _ _ E). left. congruence.
    + intros reg0 x0 -> ->.
      apply liftRegistry_Some in Hd as (d0 & Hd0 & Hl0 & _).
      apply (resolve_local reg0 x0 fuel _ i n w w' sc _ Hsc) in Hr as (st' & Hr & ->).
      assert (Hs : lifetime d0 = Scoped) by congruence.
      assert (M : missing reg0 (mkState (shared w) sc) n (lifetime d0)).
      { rewrite Hs. split; [done|]. split; [|done]. unfold lifetimeOf. rewrite Hd0. simpl.
        by rewrite Hs. }
      split; [apply (resolve_once reg0 x0 fuel n d0 _ st' v Hd0 M Hr)|].
      intros j Hj. simpl. by rewrite list_lookup_insert_ne.
  - intros context contextOf i w sc v Hsc Hp Hc Hv.
    by apply (resolve_across_scoped_hit reg context contextOf i n d v w sc).
  - intros fuel w i v ops Hf Hw (sc & Hsc & Hc) Hv.
    assert (K : ∀ w1, grows reg w w1 →
                ∃ sc1, scopes w1 !! i = Some sc1 ∧ retainedScoped sc1 !! n = Some v).
    { intros w1 E1. destruct (gr_scope _ _ _ E1 i sc Hsc) as (sc1 & H1 & _ & _ & C1).
      exists sc1. split; [done|]. rewrite C1; [done|]. right. left.
      unfold Map_get. by rewrite Hc. }
    split; [apply K, run_grows|]. split.
    + apply (run_log fuel reg
               (λ op c, ∀ x, op = Across.Access i x (KString n) → reachesOn x n →
                             c = Normal v)).
      intros w1 j x k E1 _ y [= -> -> ->] Hy.
      destruct (K w1 E1) as (sc1 & H1 & C1).
      destruct fuel as [|fuel]; [lia|]. rewrite (get_reachesOn fuel reg i y n w1 Hy).
      rewrite (resolve_across_scoped_hit reg _ _ i n d v w1 sc1); try done.
      apply (idle_absent w1 i); [|done]. by apply (idle_grows reg w).
    + intros reg0 ops0 -> -> Ho.
      apply liftRegistry_Some in Hd as (d0 & Hd0 & Hl0 & _).
      assert (Hs : lifetime d0 = Scoped) by congruence.
      destruct (run_lift fuel reg0 ops0 w) as [-> _].
      by apply (run_scoped_kept fuel reg0 n d0 v i ops0 Hf Hd0 Hs Hv w Hw); [exists sc|].
  - intros w. split; [|done]. cbn. rewrite lookup_app_r by done.
    by rewrite Nat.sub_diag.
Qed.

Lemma scoped_constructed_once_per_scope_witness :
  (calledTimes "b" (shared begunTwice)
   < calledTimes "b"
       (shared (Across.resolve reentrant 1 "b" (Across.createContext 2 reentrant 1 None)
                  (λ j, Across.createContext 2 reentrant j None) begunTwice).2)
   ∧ cachedIn "b" (VObject 1) 1
       (Across.resolve reentrant 1 "b" (Across.createContext 2 reentrant 1 None)
          (λ j, Across.createContext 2 reentrant j None) begunTwice).2)
  ∧ cachedIn "b" (VObject 1) 1
      (Across.run 3 reentrant [Across.Access 1 None (KString "b"); Across.Begin;
                               Across.Access 2 None (KString "b")]
         (Across.run 3 reentrant [Across.Access 1 None (KString "b")] begunTwice).2).2
  ∧ calledTimes "x"
      (shared (Across.resolve (liftRegistry demo) 0 "x"
                 (Across.createContext 1 (liftRegistry demo) 0 None)
                 (λ j, Across.createContext 1 (liftRegistry demo) j None) begun).2)
    = calledTimes "x" (shared begun) + 1.
Proof.
  pose proof (scoped_constructed_once_per_scope reentrant "b"
                (Across.mkDescriptor Scoped (again "b"))) as H.
  destruct H as (H1 & _ & H3 & _).
  - reflexivity.
  - reflexivity.
  - split; [|split].
    + destruct (H1 2 1 None begunTwice ServiceProvider.newScope (VObject 1)
                  (Across.resolve reentrant 1 "b" (Across.createContext 2 reentrant 1 None)
                     (λ j, Across.createContext 2 reentrant j None) begunTwice).2)
        as (A & B & _).
      * reflexivity.
      * reflexivity.
      * vm_compute. reflexivity.
      * split; [exact A | exact B].
    + apply (H3 3 (Across.run 3 reentrant [Across.Access 1 None (KString "b")]
                     begunTwice).2 1 (VObject 1)).
      * lia.
      * by_decide.
      * eexists. split; vm_compute; reflexivity.
      * discriminate.
    + pose proof (scoped_constructed_once_per_scope (liftRegistry demo) "x"
                    (liftDescriptor (mkDescriptor Scoped plain))) as L.
      destruct L as (L1 & _); [vm_compute; reflexivity | reflexivity |].
      destruct (L1 1 0 None begun ServiceProvider.newScope (VObject 0)
                  (Across.resolve (liftRegistry demo) 0 "x"
                     (Across.createContext 1 (liftRegistry demo) 0 None)
                     (λ j, Across.createContext 1 (liftRegistry demo) j None) begun).2)
        as (_ & _ & _ & C).
      * reflexivity.
      * reflexivity.
      * vm_compute. reflexivity.
      * apply (C demo None); reflexivity.
Defined.

(** ** Transient services, whatever the factories read *)

Lemma transient_across (fuel : nat) (reg : gmap string Across.Descriptor) (n : string)
    (d : Across.Descriptor) (x : option (gmap string Across.Property)) (i : nat)
    (w : World) (sc : ScopeState) :
  reg !! n = Some d → Across.lifetime d = Transient → reachesOn x n →
  scopes w !! i = Some sc → n ∉ path sc →
  Across.createContext (S fuel) reg i x (KString n) w
  = Across.invoke (Across.createContext fuel reg i x)
      (λ j, Across.createContext fuel reg j None) i n (Across.create d) w.
Proof.
  intros Hd Hl Hx Hsc Hp. rewrite (get_reachesOn fuel reg i x n w Hx).
  unfold Across.resolve. rewrite Hsc. apply circular_pass in Hp. by rewrite Hp, Hd, Hl.
Qed.

(** C7, counterexample: reads of a transient name that do not invoke its
    factory once and produce a new instance.  The transient [z] reads itself:
    the read of [z] made while [z] is under construction fails and invokes
    nothing.  The transient [t] is also in the exotic context: the read
    returns the exotic value.  A transient is registered under ["then"]: the
    read returns [undefined].  The transient [k] hands out the singleton [s]:
    two reads invoke its factory twice and return the same object.  The
    transient [c] reads its own name on a context kept from another scope: a
    single read invokes its factory twice. *)
Lemma transient_not_constructed :
  (lifetimeOf demo "z" = Some Transient
   ∧ get (createContext 1 demo None) (KString "z") (under ["z"])
     = (Throw (ResolveError "/(unnamed)/ Invalid service resolution: [z] -> [z]"),
        under ["z"]))
  ∧ (lifetimeOf demo "t" = Some Transient
     ∧ get (createContext 1 demo (Some {["t" := Data (VNumber 7)]})) (KString "t") fresh
       = (Normal (VNumber 7), fresh))
  ∧ (lifetimeOf demo "then" = Some Transient
     ∧ get (createContext 1 demo None) (KString "then") fresh = (Normal VUndefined, fresh))
  ∧ (lifetimeOf sharing "k" = Some Transient
     ∧ (run 2 sharing [Access 0 None (KString "k"); Access 0 None (KString "k")] begun).1
       = [(Access 0 None (KString "k"), Normal (VObject 0));
          (Access 0 None (KString "k"), Normal (VObject 0))])
  ∧ (lifetimeIn reentrant "c" = Some Transient
     ∧ Across.run 3 reentrant [Across.Access 1 None (KString "c")] begunTwice
       = ([(Across.Access 1 None (KString "c"), Normal (VObject 1))],
          mkWorld (mkProvider ["c"; "c"] 2 ∅)
                  [ServiceProvider.newScope; ServiceProvider.newScope])).
Proof. repeat split; vm_compute; reflexivity. Qed.

(** C7, as amended: a read of a transient name that reaches resolution (the
    name is not ["then"] and not in the exotic context) while the name is
    not under construction in the scope always runs the construction block:
    its completion is the completion of this run of the factory, which has
    been invoked, exactly once when the factories and getters read only the
    context they are handed.  No read of any key on any scope ever changes
    what the caches hold under a transient name.  When the factory
    constructs a class, the instance is an object: the one that the
    constructor returns, or else the object created for this run, whose
    identity no earlier object has.  Reading the name [k] times in a scope
    invokes the factory at least [k] times, and exactly [k] times when the
    factories read only the context they are handed. *)
Theorem transient_always_constructed (fuel : nat) (reg : gmap string Across.Descriptor)
    (n : string) (d : Across.Descriptor)
    (exoticContext : option (gmap string Across.Property)) :
  reg !! n = Some d → Across.lifetime d = Transient → reachesOn exoticContext n →
  (∀ i w sc, scopes w !! i = Some sc → n ∉ path sc →
     Across.createContext (S fuel) reg i exoticContext (KString n) w
       = Across.invoke (Across.createContext fuel reg i exoticContext)
           (λ j, Across.createContext fuel reg j None) i n (Across.create d) w
     ∧ calledTimes n (shared w)
       < calledTimes n
           (shared (Across.createContext (S fuel) reg i exoticContext (KString n) w).2)
     ∧ (∀ reg0 x0, reg = liftRegistry reg0 → exoticContext = liftExotic x0 →
          calledTimes n
            (shared (Across.createContext (S fuel) reg i exoticContext (KString n) w).2)
          = calledTimes n (shared w) + 1))
  ∧ (∀ f j y k w,
       retainedSingleton (shared (Across.createContext f reg j y k w).2) !! n
         = retainedSingleton (shared w) !! n
       ∧ ∀ j' sc', scopes (Across.createContext f reg j y k w).2 !! j' = Some sc' →
           retainedScoped sc' !! n = scopes w !! j' ≫= (λ sc, retainedScoped sc !! n))
  ∧ (∀ body i w sc v w',
       Across.create d = Across.construct body → scopes w !! i = Some sc → n ∉ path sc →
       Across.createContext (S fuel) reg i exoticContext (KString n) w = (Normal v, w') →
       isObject v
       ∧ allocated (shared w) < allocated (shared w')
       ∧ ∀ u w1,
           Across.exec (Across.createContext fuel reg i exoticContext)
             (λ j, Across.createContext fuel reg j None) body
             (Across.allocate (Across.onScope i (called n) (Across.onScope i (push n) w)))
           = (Normal u, w1) →
           v = match u with VObject _ => u | _ => VObject (allocated (shared w)) end)
  ∧ (∀ k w i sc, idle w → scopes w !! i = Some sc →
       calledTimes n (shared w) + k
       ≤ calledTimes n
           (shared (Across.run (S fuel) reg
                      (replicate k (Across.Access i exoticContext (KString n))) w).2)
       ∧ length (Across.run (S fuel) reg
                   (replicate k (Across.Access i exoticContext (KString n))) w).1 = k
       ∧ (∀ reg0 x0, reg = liftRegistry reg0 → exoticContext = liftExotic x0 →
            calledTimes n
              (shared (Across.run (S fuel) reg
                         (replicate k (Across.Access i exoticContext (KString n))) w).2)
            = calledTimes n (shared w) + k)).
Proof.
  intros Hd Hl Hx. pose proof (lifetimeIn_Some reg n d Hd) as Hk. rewrite Hl in Hk.
  assert (Hr : ∀ w, ¬ atRest reg (shared w) n).
  { intros w [H|[H _]]; congruence. }
  assert (R1 : ∀ i w sc, scopes w !! i = Some sc → n ∉ path sc →
            calledTimes n (shared w)
            < calledTimes n
                (shared (Across.createContext (S fuel) reg i exoticContext (KString n) w).2)).
  { intros i w sc Hsc Hp.
    rewrite (transient_across fuel reg n d exoticContext i w sc Hd Hl Hx Hsc Hp).
    apply (invoke_grows reg _ _ i n (Across.create d) w sc); try done.
    - apply createContext_bounded.
    - intros j. apply createContext_bounded. }
  split; [|split; [|split]].
  - intros i w sc Hsc Hp.
    split; [by apply (transient_across fuel reg n d exoticContext i w sc)|].
    split; [by apply (R1 i w sc)|].
    intros reg0 x0 -> ->.
    apply liftRegistry_Some in Hd as (d0 & Hd0 & Hl0 & _).
    assert (Hs : lifetime d0 = Transient) by congruence.
    rewrite (createContext_lift reg0 x0 (S fuel) i (KString n) w sc Hsc).
    apply reachesOn_lift in Hx.
    destruct (transient_read fuel reg0 n d0 x0 (mkState (shared w) sc) Hd0 Hs Hx Hp)
      as [_ I].
    apply (in_once _ _ _ _ I).
  - intros f j y k w. pose proof (createContext_bounded reg f j y k w) as E.
    split; [apply (gr_singleton _ _ _ E); left; congruence|].
    intros j' sc' Hj'. destruct (scopes w !! j') as [sc0|] eqn:H0; simpl.
    + destruct (gr_scope _ _ _ E j' sc0 H0) as (sc1 & H1 & _ & _ & C1).
      assert (sc1 = sc') as -> by congruence. apply C1. left. congruence.
    + destruct (gr_new _ _ _ E j' sc' Hj' H0) as [_ C]. apply C. congruence.
  - intros body i w sc v w' Hb Hsc Hp Hg.
    rewrite (transient_across fuel reg n d exoticContext i w sc Hd Hl Hx Hsc Hp) in Hg.
    unfold Across.invoke in Hg. rewrite Hb, construct_exec_across in Hg.
    set (w0 := Across.onScope i (called n) (Across.onScope i (push n) w)) in *.
    assert (H0 : allocated (shared w0) = allocated (shared w)).
    { unfold w0. by rewrite (entered i n w sc Hsc). }
    pose proof (exec_grows reg _ _ (createContext_bounded reg fuel i exoticContext)
                  (λ j, createContext_bounded reg fuel j None) body (Across.allocate w0))
      as E.
    destruct (Across.exec _ _ body (Across.allocate w0)) as [[u| |] w1]; [|done..].
    injection Hg as <- <-. apply gr_allocated in E. simpl in E. rewrite H0 in *.
    assert (Ha : allocated (shared (Across.onScope i pop w1)) = allocated (shared w1)).
    { unfold Across.onScope. by destruct (scopes w1 !! i). }
    split; [destruct u; by eexists|]. split; [lia|].
    by intros u' w1' [= <- <-].
  - induction k as [|k IH]; intros w i sc Hw Hsc.
    { simpl. split; [lia|]. split; [done|]. intros; lia. }
    cbn [replicate Across.run Across.perform]. rewrite Hsc.
    pose proof (idle_absent w i sc n Hw Hsc) as Hp.
    pose proof (R1 i w sc Hsc Hp) as Hc.
    pose proof (createContext_bounded reg (S fuel) i exoticContext (KString n) w) as E.
    assert (L : ∀ reg0 x0, reg = liftRegistry reg0 → exoticContext = liftExotic x0 →
              calledTimes n
                (shared (Across.createContext (S fuel) reg i exoticContext (KString n) w).2)
              = calledTimes n (shared w) + 1).
    { intros reg0 x0 -> ->.
      apply liftRegistry_Some in Hd as (d0 & Hd0 & Hl0 & _).
      assert (Hs : lifetime d0 = Transient) by congruence.
      rewrite (createContext_lift reg0 x0 (S fuel) i (KString n) w sc Hsc).
      apply reachesOn_lift in Hx.
      destruct (transient_read fuel reg0 n d0 x0 (mkState (shared w) sc) Hd0 Hs Hx Hp)
        as [_ I].
      apply (in_once _ _ _ _ I). }
    destruct (Across.createContext (S fuel) reg i exoticContext (KString n) w) as [r w1].
    cbn [fst snd] in *.
    destruct (gr_scope _ _ _ E i sc Hsc) as (sc1 & H1 & _).
    destruct (IH w1 i sc1 (idle_grows reg w w1 Hw E) H1) as (I1 & I2 & I3).
    destruct (Across.run (S fuel) reg _ w1) as [log w2]. cbn [fst snd length] in *.
    split; [lia|]. split; [by rewrite I2|].
    intros reg0 x0 Hreg Hex. rewrite (I3 reg0 x0 Hreg Hex), (L reg0 x0 Hreg Hex). lia.
Qed.

Lemma transient_always_constructed_witness :
  (Across.createContext 3 reentrant 1 None (KString "c") begunTwice
     = Across.invoke (Across.createContext 2 reentrant 1 None)
         (λ j, Across.createContext 2 reentrant j None) 1 "c" (again "c") begunTwice
   ∧ calledTimes "c" (shared begunTwice)
     < calledTimes "c"
         (shared (Across.createContext 3 reentrant 1 None (KString "c") begunTwice).2))
  ∧ calledTimes "c" (shared begunTwice) + 3
    ≤ calledTimes "c"
        (shared (Across.run 3 reentrant
                   (replicate 3 (Across.Access 1 None (KString "c"))) begunTwice).2)
  ∧ calledTimes "t"
      (shared (Across.run 1 (liftRegistry demo)
                 (replicate 3 (Across.Access 0 None (KString "t"))) begun).2)
    = calledTimes "t" (shared begun) + 3.
Proof.
  pose proof (transient_always_constructed 2 reentrant "c"
                (Across.mkDescriptor Transient (again "c")) None) as H.
  destruct H as (H1 & _ & _ & H4).
  - reflexivity.
  - reflexivity.
  - split; [by_decide | reflexivity].
  - split; [|split].
    + destruct (H1 1 begunTwice ServiceProvider.newScope) as (A & B & _);
        [reflexivity | by_decide | by split].
    + apply (H4 3 begunTwice 1 ServiceProvider.newScope); [by_decide | reflexivity].
    + pose proof (transient_always_constructed 0 (liftRegistry demo) "t"
                    (liftDescriptor (mkDescriptor Transient plain)) None) as L.
      destruct L as (_ & _ & _ & L4);
        [vm_compute; reflexivity | reflexivity | split; [by_decide | reflexivity] |].
      destruct (L4 3 begun 0 ServiceProvider.newScope) as (_ & _ & C);
        [by_decide | reflexivity |].
      apply (C demo None); reflexivity.
Defined.

(** ** Resolutions that fail *)

Lemma failed_resolution_local (reg : gmap string Descriptor)
    (x : option (gmap string Property)) (fuel : nat) (n : string)
    (st st' : state) (r : completion) :
  resolve reg n (createContext fuel reg x) st = (r, st') →
  (∀ v, r ≠ Normal v) →
  retainedSingleton (provider st') !! n = retainedSingleton (provider st) !! n
  ∧ retainedScoped (scope st') !! n = retainedScoped (scope st) !! n
  ∧ path (scope st') = path (scope st).
Proof.
  intros Hr Hv. unfold resolve in Hr.
  destruct (throwErrorIfCircularReferenced n (scope st)); [by injection Hr as <- <-|].
  destruct (ServiceRegistry.get reg n) as [|d]; [by injection Hr as <- <-|].
  pose proof (invoke_invoked reg (createContext fuel reg x) n (create d) st
                (createContext_framed reg x fuel)) as I.
  destruct (invoke (createContext fuel reg x) n (create d) st) as [o s]. simpl in I.
  assert (A : retainedSingleton (provider s) !! n = retainedSingleton (provider st) !! n
              ∧ retainedScoped (scope s) !! n = retainedScoped (scope st) !! n
              ∧ path (scope s) = path (scope st)).
  { split; [apply I|]. split; apply I. }
  destruct (lifetime d).
  - case_decide; [|injection Hr as <- <-; by destruct (Hv _ eq_refl)].
    destruct o as [v| |]; injection Hr as <- <-; [by destruct (Hv v)|done..].
  - case_decide; [|injection Hr as <- <-; by destruct (Hv _ eq_refl)].
    destruct (throwErrorIfLifetimeExceeded reg n (scope st)); [by injection Hr as <- <-|].
    destruct o as [v| |]; injection Hr as <- <-; [by destruct (Hv v)|done..].
  - destruct o as [v| |]; injection Hr as <- <-; [by destruct (Hv v)|done..].
Qed.

(** A resolution that fails can leave an instance behind: the singleton [a]
    of [stubborn], read on the second scope, throws, and the construction
    that its factory started on the first scope has stored its instance. *)
Example failed_resolution_may_store :
  Across.run 3 stubborn [Across.Access 1 None (KString "a")] begunTwice
  = ([(Across.Access 1 None (KString "a"), Throw (UserError (VString "boom")))],
     mkWorld (mkProvider ["a"; "a"] 1 {["a" := VObject 0]})
             [ServiceProvider.newScope; ServiceProvider.newScope]).
Proof. vm_compute. reflexivity. Qed.

(** X7: a resolution that does not complete normally stores nothing under
    the name in the scoped cache of its scope, and the resolution stack of
    the scope is as it was, whatever the factories read; it stores nothing
    under the name in the singleton cache either when the name is not a
    singleton, or when the factories and getters read only the context they
    are handed. *)
Theorem failed_resolution_stores_nothing (reg : gmap string Across.Descriptor)
    (x : option (gmap string Across.Property)) (fuel : nat) (i : nat) (n : string)
    (w w' : World) (sc : ScopeState) (r : completion) :
  scopes w !! i = Some sc →
  Across.resolve reg i n (Across.createContext fuel reg i x)
    (λ j, Across.createContext fuel reg j None) w = (r, w') →
  (∀ v, r ≠ Normal v) →
  (∃ sc', scopes w' !! i = Some sc'
          ∧ retainedScoped sc' !! n = retainedScoped sc !! n ∧ path sc' = path sc)
  ∧ (lifetimeIn reg n ≠ Some Singleton →
       retainedSingleton (shared w') !! n = retainedSingleton (shared w) !! n)
  ∧ (∀ reg0 x0, reg = liftRegistry reg0 → x = liftExotic x0 →
       retainedSingleton (shared w') !! n = retainedSingleton (shared w) !! n).
Proof.
  intros Hsc Hr Hv. split; [|split].
  - assert (Hid : ∃ sc', scopes w !! i = Some sc'
                    ∧ retainedScoped sc' !! n = retainedScoped sc !! n ∧ path sc' = path sc)
      by (by exists sc).
    unfold Across.resolve in Hr. rewrite Hsc in Hr.
    destruct (throwErrorIfCircularReferenced n sc); [by injection Hr as <- <-|].
    destruct (reg !! n) as [d|] eqn:Hd; [|by injection Hr as <- <-].
    pose proof (lifetimeIn_Some reg n d Hd) as Hk.
    assert (I : ¬ atRest reg (shared w) n →
              ∃ sc', scopes (Across.invoke (Across.createContext fuel reg i x)
                               (λ j, Across.createContext fuel reg j None) i n
                               (Across.create d) w).2 !! i = Some sc'
                     ∧ retainedScoped sc' !! n = retainedScoped sc !! n
                     ∧ path sc' = path sc).
    { intros Ha.
      destruct (invoke_grows reg (Across.createContext fuel reg i x)
                  (λ j, Across.createContext fuel reg j None) i n (Across.create d) w sc)
        as (E & _ & sc' & Hi & Hc);
        [apply createContext_bounded | intros j; apply createContext_bounded | done..|].
      exists sc'. do 2 (split; [done|]).
      destruct (gr_scope _ _ _ E i sc Hsc) as (sc'' & Hi' & P & _). congruence. }
    destruct (Across.lifetime d) eqn:Hl.
    + case_decide as Hu; [|injection Hr as <- <-; by destruct (Hv _ eq_refl)].
      destruct I as (sc' & I); [intros [H|[_ H]]; congruence|].
      destruct (Across.invoke _ _ i n (Across.create d) w) as [[v| |] w1];
        injection Hr as <- <-; [by destruct (Hv v)|by exists sc'..].
    + case_decide as Hu; [|injection Hr as <- <-; by destruct (Hv _ eq_refl)].
      destruct (throwErrorIfLifetimeExceeded _ n sc); [by injection Hr as <- <-|].
      destruct I as (sc' & I); [intros [H|[H _]]; congruence|].
      destruct (Across.invoke _ _ i n (Across.create d) w) as [[v| |] w1];
        injection Hr as <- <-; [by destruct (Hv v)|by exists sc'..].
    + destruct I as (sc' & I); [intros [H|[H _]]; congruence|].
      rewrite Hr in I. by exists sc'.
  - intros Hk.
    pose proof (resolve_grows reg (Across.createContext fuel reg i x)
                  (λ j, Across.createContext fuel reg j None) i n w
                  (createContext_bounded reg fuel i x)
                  (λ j, createContext_bounded reg fuel j None)) as E.
    rewrite Hr in E. apply (gr_singleton _ _ _ E). by left.
  - intros reg0 x0 -> ->.
    apply (resolve_local reg0 x0 fuel _ i n w w' sc _ Hsc) in Hr as (st' & Hr & ->).
    by destruct (failed_resolution_local reg0 x0 fuel n _ st' r Hr Hv) as (H1 & _).
Qed.

Lemma failed_resolution_stores_nothing_witness :
  ∃ sc', scopes (Across.resolve stubborn 1 "a" (Across.createContext 2 stubborn 1 None)
                   (λ j, Across.createContext 2 stubborn j None) begunTwice).2 !! 1
         = Some sc'
         ∧ retainedScoped sc' !! "a" = retainedScoped ServiceProvider.newScope !! "a"
         ∧ path sc' = path ServiceProvider.newScope.
Proof.
  apply (failed_resolution_stores_nothing stubborn None 2 1 "a" begunTwice
           (Across.resolve stubborn 1 "a" (Across.createContext 2 stubborn 1 None)
              (λ j, Across.createContext 2 stubborn j None) begunTwice).2
           ServiceProvider.newScope
           (Across.resolve stubborn 1 "a" (Across.createContext 2 stubborn 1 None)
              (λ j, Across.createContext 2 stubborn j None) begunTwice).1).
  - reflexivity.
  - by destruct (Across.resolve stubborn 1 "a" _ _ begunTwice).
  - intros v. vm_compute. discriminate.
Defined.

(** ** Scopes of one provider *)

Lemma run_elsewhere (fuel : nat) (reg : gmap string Descriptor) (i : nat)
    (sc : ScopeState) (ops : list Op) (w : World) :
  scopes w !! i = Some sc → Forall (elsewhere i) ops →
  scopes (run fuel reg ops w).2 !! i = Some sc.
Proof.
  revert w. induction ops as [|op ops IH]; intros w Hsc Ho; [done|]. cbn [run].
  apply Forall_cons in Ho as [Ho1 Ho2].
  pose proof (perform_elsewhere fuel reg i sc op w Hsc Ho1) as H1.
  destruct (perform fuel reg op w) as [r w1]. specialize (IH w1 H1 Ho2).
  by destruct (run fuel reg ops w1) as [log w2].
Qed.

(** X10: whatever scopes are begun, whatever is read on whatever scope and
    whatever contexts the factories read, a scope stays in the provider and
    keeps its resolution stack and every entry of its scoped cache that is
    settled (the name is not a scoped one, or is cached, or is under
    construction there).  When the factories and getters read only the
    context they are handed, beginning scopes and reading on other scopes
    leaves the scope exactly as it was. *)
Theorem scope_untouched_by_others (fuel : nat) (reg : gmap string Across.Descriptor)
    (i : nat) (sc : ScopeState) (ops : list Across.Op) (w : World) :
  scopes w !! i = Some sc →
  (∃ sc', scopes (Across.run fuel reg ops w).2 !! i = Some sc'
          ∧ path sc' = path sc
          ∧ ∀ n, settledScoped reg sc n → retainedScoped sc' !! n = retainedScoped sc !! n)
  ∧ (∀ reg0 ops0, reg = liftRegistry reg0 → ops = liftOp <$> ops0 →
       Forall (elsewhere i) ops0 →
       scopes (Across.run fuel reg ops w).2 !! i = Some sc).
Proof.
  intros Hsc. split.
  - destruct (gr_scope _ _ _ (run_grows fuel reg ops w) i sc Hsc) as (sc' & H1 & P & N & C).
    by exists sc'.
  - intros reg0 ops0 -> -> Ho. destruct (run_lift fuel reg0 ops0 w) as [-> _].
    by apply run_elsewhere.
Qed.

Lemma scope_untouched_by_others_witness :
  ∃ sc', scopes (Across.run 3 reentrant [Across.Begin; Across.Access 1 None (KString "b")]
                   begunTwice).2 !! 0 = Some sc'
         ∧ path sc' = path ServiceProvider.newScope
         ∧ ∀ n, settledScoped reentrant ServiceProvider.newScope n →
                retainedScoped sc' !! n = retainedScoped ServiceProvider.newScope !! n.
Proof.
  apply (proj1 (scope_untouched_by_others 3 reentrant 0 ServiceProvider.newScope
                  [Across.Begin; Across.Access 1 None (KString "b")] begunTwice
                  eq_refl)).
Defined.
